(** * yaml_dotaccess: dot-accessible, sortable nested mappings

    A shallow embedding of [simplenamespace_sample.py] (class
    [DotAccessDict], class [SafeNone]) and of the pure parts of
    [box_sample.py] ([create_ordered_box], [sort_nested_dictionary]).

    Python objects with identity live in an explicit heap; an address is
    the object's identity, and allocation appends to the heap.  Plain
    data (None, bool, int, str, list, dict) is carried by value: none of
    the modelled operations mutates a list or a plain dict.  Attribute
    access and assignment on names that start with two underscores, and
    on the two private slots [_data] and [_namespace] from outside the
    class, are outside the model: [getattr] and [setattr] answer
    [Unmodelled] on them.  Keys of a source mapping are strings, those
    that start with two underscores included. *)

From Stdlib Require Import ZArith Lia Permutation Sorted.
From stdpp Require Import base option list sorting gmap strings.

Open Scope string_scope.
Open Scope list_scope.
Set Warnings "-register-all".

(** ** Values and objects *)

Abbreviation addr := nat.

Inductive value : Type :=
| VNone
| VBool (b : bool)
| VInt (z : Z)
| VStr (s : string)
| VList (l : list value)
| VDict (d : list (string * value))   (* a plain dict, in iteration order *)
| VRef (a : addr)                     (* a DotAccessDict or SafeNone instance *)
| VMethod (self : addr) (name : string).  (* a bound method of a DotAccessDict *)

(** [self._data] is an OrderedDict, [self._namespace] a SimpleNamespace
    (its attribute table), [attrs] the rest of the instance [__dict__]. *)
Record dot_obj : Type := MkDot {
  _data : list (string * value);
  _namespace : gmap string value;
  attrs : gmap string value
}.

Inductive obj : Type :=
| ODot (o : dot_obj)
| OSafeNone (sattrs : gmap string value).

Abbreviation heap := (list obj).

Inductive exn : Type :=
| AttributeError
| TypeError
| RecursionError
| Unmodelled.

Inductive result (A : Type) : Type :=
| Ok (x : A)
| Err (e : exn).
Arguments Ok {A} x.
Arguments Err {A} e.

Definition bind {A B} (r : result A) (k : A -> result B) : result B :=
  match r with
  | Ok x => k x
  | Err e => Err e
  end.

Notation "'let*' p ':=' r 'in' k" := (bind r (fun p => k))
  (at level 10, p pattern, r at level 100, k at level 200, only parsing).

(** ** Names *)

Definition dunder (p : string) : bool :=
  String.prefix "__" p.

Definition private_slot (p : string) : bool :=
  bool_decide (p = "_data") || bool_decide (p = "_namespace").

(** The names an attribute access or assignment from outside the class
    is modelled on. *)
Definition plain_name (p : string) : bool :=
  negb (dunder p) && negb (private_slot p).

(** The non-dunder names defined in the body of [class DotAccessDict]. *)
Definition class_attrs : list string :=
  ["_update_from_dict"; "get"; "keys"; "items"; "values"; "sort"].

Definition is_class_attr (p : string) : bool :=
  bool_decide (p ∈ class_attrs).

(** ** OrderedDict *)

(** [od[k] = v]: an existing key keeps its position, a new key goes last. *)
Fixpoint od_set (d : list (string * value)) (k : string) (v : value)
  : list (string * value) :=
  match d with
  | [] => [(k, v)]
  | (k', v') :: d' =>
      if String.eqb k' k then (k', v) :: d' else (k', v') :: od_set d' k v
  end.

Fixpoint od_get (d : list (string * value)) (k : string) : option value :=
  match d with
  | [] => None
  | (k', v') :: d' => if String.eqb k' k then Some v' else od_get d' k
  end.

(** ** Heap access *)

Definition empty_dot : dot_obj := MkDot [] ∅ ∅.

Definition get_dot (h : heap) (a : addr) : result dot_obj :=
  match h !! a with
  | Some (ODot o) => Ok o
  | _ => Err Unmodelled
  end.

Definition is_dot (h : heap) (v : value) : bool :=
  match v with
  | VRef a => match h !! a with Some (ODot _) => true | _ => false end
  | _ => false
  end.

Definition is_dict (v : value) : bool :=
  match v with VDict _ => true | _ => false end.

Definition is_list (v : value) : bool :=
  match v with VList _ => true | _ => false end.

(** The two names [setattr] on a [SimpleNamespace] refuses:
    [__class__] must be set to a class, which no value stored by the
    class is, and [__dict__] is read-only. *)
Definition ns_reserved (k : string) : bool :=
  String.eqb k "__class__" || String.eqb k "__dict__".

(** [setattr(ns, k, v)] on a [SimpleNamespace]: every other name, the
    dunder names among them, goes into the attribute table. *)
Definition ns_setattr (ns : gmap string value) (k : string) (v : value)
  : result (gmap string value) :=
  if String.eqb k "__class__" then Err TypeError
  else if String.eqb k "__dict__" then Err AttributeError
  else Ok (<[k := v]> ns).

(** The two statements that end each loop body of [_update_from_dict] and
    [sort]: [self._data[k] = v; setattr(self._namespace, str(k), self._data[k])]. *)
Definition store_entry (h : heap) (a : addr) (k : string) (v : value)
  : result heap :=
  let* o := get_dot h a in
  let* ns := ns_setattr (_namespace o) k v in
  Ok (<[a := ODot (MkDot (od_set (_data o) k v) ns (attrs o))]> h).

(** The lookup of a method on an instance, as in [self.items] or
    [v.sort]: the instance [__dict__] comes before the class, so an
    assigned attribute of that name is what the call finds.  None of the
    values of the model is callable but a bound method, and calling a
    bound method that was assigned under another name is outside the
    model. *)
Definition bound_method (h : heap) (a : addr) (name : string) : result unit :=
  match h !! a with
  | Some (ODot o) =>
      match attrs o !! name with
      | None => Ok tt
      | Some (VMethod _ _) => Err Unmodelled
      | Some _ => Err TypeError
      end
  | _ => Err Unmodelled
  end.

(** ** Truth value ([bool(v)]) *)

Definition truthy (h : heap) (v : value) : bool :=
  match v with
  | VNone => false
  | VBool b => b
  | VInt z => negb (Z.eqb z 0)
  | VStr s => negb (String.eqb s "")
  | VList l => match l with [] => false | _ => true end
  | VDict d => match d with [] => false | _ => true end
  | VRef a => match h !! a with Some (OSafeNone _) => false | _ => true end
  | VMethod _ _ => true
  end.

(** ** Construction: [DotAccessDict.__init__] and [_update_from_dict] *)

(** [DotAccessDict(data)] allocates the instance with an empty [_data]
    and [_namespace]; [if data:] and the [isinstance(data, dict)] guard
    leave it empty for anything but a non-empty dict.  The two inner
    loops are the [for key, value in data.items()] loop and the list
    comprehension over a list value. *)
Fixpoint DotAccessDict (data : value) (h : heap) {struct data}
  : result (heap * addr) :=
  let self := length h in
  let h0 := h ++ [ODot empty_dot] in
  if truthy h0 data then
    match data with
    | VDict d =>
        let* h' := (fix update (d : list (string * value)) (h : heap)
                 : result heap :=
                 match d with
                 | [] => Ok h
                 | (key, v) :: d' =>
                     let* (h1, stored) :=
                       match v with
                       | VDict _ =>
                           let* (h1, c) := DotAccessDict v h in Ok (h1, VRef c)
                       | VList l =>
                           let* (h1, l') :=
                             (fix wrap (l : list value) (h : heap)
                                : result (heap * list value) :=
                                match l with
                                | [] => Ok (h, [])
                                | item :: l' =>
                                    let* (h1, e) :=
                                      match item with
                                      | VDict _ =>
                                          let* (h1, c) := DotAccessDict item h in
                                          Ok (h1, VRef c)
                                      | _ => Ok (h, item)
                                      end in
                                    let* (h2, es) := wrap l' h1 in
                                    Ok (h2, e :: es)
                                end) l h in
                           Ok (h1, VList l')
                       | _ => Ok (h, v)
                       end in
                     let* h2 := store_entry h1 self key stored in
                     update d' h2
                 end) d h0 in
        Ok (h', self)
    | _ => Ok (h0, self)
    end
  else Ok (h0, self).

(** The loops of the constructor under names of their own: the list
    comprehension, the right-hand side of [self._data[key] = ...], and
    the [for] loop of [_update_from_dict].  [DotAccessDict] unfolds to
    them (lemmas [DotAccessDict_dict] and [update_from_cons]). *)
Definition wrap_item (h : heap) (item : value) : result (heap * value) :=
  match item with
  | VDict _ => let* (h1, c) := DotAccessDict item h in Ok (h1, VRef c)
  | _ => Ok (h, item)
  end.

Fixpoint wrap_items (l : list value) (h : heap) : result (heap * list value) :=
  match l with
  | [] => Ok (h, [])
  | item :: l' =>
      let* (h1, e) := wrap_item h item in
      let* (h2, es) := wrap_items l' h1 in
      Ok (h2, e :: es)
  end.

Definition wrap_value (h : heap) (v : value) : result (heap * value) :=
  match v with
  | VDict _ => let* (h1, c) := DotAccessDict v h in Ok (h1, VRef c)
  | VList l => let* (h1, l') := wrap_items l h in Ok (h1, VList l')
  | _ => Ok (h, v)
  end.

Fixpoint update_from (self : addr) (d : list (string * value)) (h : heap)
  : result heap :=
  match d with
  | [] => Ok h
  | (key, v) :: d' =>
      let* (h1, stored) := wrap_value h v in
      let* h2 := store_entry h1 self key stored in
      update_from self d' h2
  end.

(** ** Enumeration and [get] *)

Definition keys (h : heap) (self : addr) : result (list string) :=
  let* o := get_dot h self in Ok (map fst (_data o)).

Definition items (h : heap) (self : addr) : result (list (string * value)) :=
  let* o := get_dot h self in Ok (_data o).

Definition values (h : heap) (self : addr) : result (list value) :=
  let* o := get_dot h self in Ok (map snd (_data o)).

Definition get (h : heap) (self : addr) (key : string) (default : value)
  : result value :=
  let* o := get_dot h self in Ok (match od_get (_data o) key with Some v => v | None => default end).

(** The calls [x.keys()], [x.items()], [x.values()] and [x.get(k, d)]
    as a caller writes them: the method is looked up on the instance
    first. *)
Definition call_keys (h : heap) (x : addr) : result (list string) :=
  let* _ := bound_method h x "keys" in keys h x.

Definition call_items (h : heap) (x : addr) : result (list (string * value)) :=
  let* _ := bound_method h x "items" in items h x.

Definition call_values (h : heap) (x : addr) : result (list value) :=
  let* _ := bound_method h x "values" in values h x.

Definition call_get (h : heap) (x : addr) (key : string) (default : value)
  : result value :=
  let* _ := bound_method h x "get" in get h x key default.

(** ** Attribute access and assignment *)

(** [v.p].  On a DotAccessDict the ordinary lookup comes first (the
    instance [__dict__], then the class body); only when that fails does
    [__getattr__] run, which reads [self._namespace] and answers a fresh
    [SafeNone()] on a miss.  [SafeNone.__getattr__] returns [None]. *)
Definition getattr (h : heap) (v : value) (p : string)
  : result (heap * value) :=
  if negb (plain_name p) then Err Unmodelled else
  match v with
  | VRef a =>
      match h !! a with
      | Some (ODot o) =>
          match attrs o !! p with
          | Some w => Ok (h, w)
          | None =>
              if is_class_attr p then Ok (h, VMethod a p)
              else match _namespace o !! p with
                   | Some w => Ok (h, w)
                   | None => Ok (h ++ [OSafeNone ∅], VRef (length h))
                   end
          end
      | Some (OSafeNone sa) =>
          match sa !! p with
          | Some w => Ok (h, w)
          | None => Ok (h, VNone)
          end
      | None => Err Unmodelled
      end
  | VNone => Err AttributeError
  | _ => Err Unmodelled        (* attributes of the built-in types *)
  end.

(** [v.p = w].  Neither class defines [__setattr__]: the value goes into
    the instance [__dict__], as it is. *)
Definition setattr (h : heap) (v : value) (p : string) (w : value)
  : result heap :=
  if negb (plain_name p) then Err Unmodelled else
  match v with
  | VRef a =>
      match h !! a with
      | Some (ODot o) =>
          Ok (<[a := ODot (MkDot (_data o) (_namespace o) (<[p := w]> (attrs o)))]> h)
      | Some (OSafeNone sa) => Ok (<[a := OSafeNone (<[p := w]> sa)]> h)
      | None => Err Unmodelled
      end
  | _ => Err AttributeError
  end.

(** A chain [v.p1.p2...pn], left to right. *)
Fixpoint getattr_chain (h : heap) (v : value) (ps : list string)
  : result (heap * value) :=
  match ps with
  | [] => Ok (h, v)
  | p :: ps' => let* (h1, w) := getattr h v p in getattr_chain h1 w ps'
  end.

(** [str(v)] for the one class that defines it. *)
Definition SafeNone_str : string := "None".

(** ** Equality *)

(** [a is b], as far as the model has identity. *)
Definition same_object (v w : value) : bool :=
  match v, w with
  | VRef a, VRef b => Nat.eqb a b
  | _, _ => false
  end.

(** [v == w] on built-in values; instances are handed to [ref_eq].
    Containers compare their elements with [a is b or a == b]; list
    equality checks the lengths first; plain dicts compare without
    regard to order. *)
Section val_eq.
Variable ref_eq : addr -> addr -> result bool.

Fixpoint val_eq (v w : value) {struct v} : result bool :=
  match v, w with
  | VNone, VNone => Ok true
  | VBool a, VBool b => Ok (Bool.eqb a b)
  | VBool a, VInt z => Ok (Z.eqb (Z.b2z a) z)
  | VInt z, VBool a => Ok (Z.eqb z (Z.b2z a))
  | VInt a, VInt b => Ok (Z.eqb a b)
  | VStr a, VStr b => Ok (String.eqb a b)
  | VList l, VList m =>
      if Nat.eqb (length l) (length m) then
        (fix all (l m : list value) : result bool :=
           match l, m with
           | x :: l', y :: m' =>
               let* b := (if same_object x y then Ok true else val_eq x y) in
               if b then all l' m' else Ok false
           | _, _ => Ok true
           end) l m
      else Ok false
  | VDict d, VDict e =>
      if Nat.eqb (length d) (length e) then
        (fix all (d : list (string * value)) : result bool :=
           match d with
           | [] => Ok true
           | (k, x) :: d' =>
               match od_get e k with
               | None => Ok false
               | Some y =>
                   let* b := (if same_object x y then Ok true else val_eq x y) in
                   if b then all d' else Ok false
               end
           end) d
      else Ok false
  | VRef a, VRef b => ref_eq a b
  | VMethod a n, VMethod b m => Ok (Nat.eqb a b && String.eqb n m)
  | _, _ => Ok false
  end.

(** [list(self.items()) == list(other.items())]: two lists of
    [(key, value)] tuples. *)
Fixpoint tuples_eq (l m : list (string * value)) : result bool :=
  match l, m with
  | (k1, v1) :: l', (k2, v2) :: m' =>
      if String.eqb k1 k2 then
        let* b := (if same_object v1 v2 then Ok true else val_eq v1 v2) in
        if b then tuples_eq l' m' else Ok false
      else Ok false
  | _, _ => Ok true
  end.

Definition items_eq (l m : list (string * value)) : result bool :=
  if Nat.eqb (length l) (length m) then tuples_eq l m else Ok false.
End val_eq.

(** [==] between two instances: [DotAccessDict.__eq__] when the left one
    is a DotAccessDict, the reflected call when only the right one is,
    identity between two SafeNone instances (the class has no [__eq__]). *)
Definition ref_cmp (h : heap) (dot_eq : addr -> value -> result bool)
  (a b : addr) : result bool :=
  match h !! a, h !! b with
  | Some (ODot _), Some _ => dot_eq a (VRef b)
  | Some (OSafeNone _), Some (ODot _) => dot_eq b (VRef a)
  | Some (OSafeNone _), Some (OSafeNone _) => Ok (Nat.eqb a b)
  | _, _ => Err Unmodelled
  end.

(** [DotAccessDict.__eq__(self, other)]: [self.items()] and
    [other.items()] are calls through the instances.  [fuel] bounds the
    depth of the recursion, as the interpreter's recursion limit does. *)
Fixpoint DotAccessDict_eq (fuel : nat) (h : heap) (self : addr) (other : value)
  : result bool :=
  match fuel with
  | 0 => Err RecursionError
  | S n =>
      if negb (is_dot h other) then Ok false else
      match other with
      | VRef b =>
          let* xs := call_items h self in
          let* ys := call_items h b in
          items_eq (ref_cmp h (DotAccessDict_eq n h)) xs ys
      | _ => Ok false
      end
  end.

Definition py_eq (fuel : nat) (h : heap) (v w : value) : result bool :=
  val_eq (ref_cmp h (DotAccessDict_eq fuel h)) v w.

(** ** [sorted] *)

(** Python compares [str] keys by code point; [String.leb] compares the
    bytes of the UTF-8 text, which is the same order.  Python's [sorted]
    is a stable sort; a stable sort has one possible output, which
    insertion from the right computes.  [reverse=True]
    keeps equal elements in their original order: the list is reversed,
    sorted and reversed again. *)
Section sorted.
Context {A : Type}.
Variable sort_key : A -> string.

Fixpoint insert_sorted (x : A) (l : list A) : list A :=
  match l with
  | [] => [x]
  | y :: l' =>
      if String.leb (sort_key x) (sort_key y) then x :: y :: l'
      else y :: insert_sorted x l'
  end.

Fixpoint sorted_asc (l : list A) : list A :=
  match l with
  | [] => []
  | x :: l' => insert_sorted x (sorted_asc l')
  end.

Definition sorted (reverse : bool) (l : list A) : list A :=
  if reverse then rev (sorted_asc (rev l)) else sorted_asc l.
End sorted.

(** The [key=] argument of [sort]: [None] compares the [(k, v)] tuples
    themselves, which the keys decide because the keys of an OrderedDict
    are distinct; a key function is taken to return strings. *)
Definition item_key (key : option (string * value -> string))
  : string * value -> string :=
  match key with
  | None => fst
  | Some f => f
  end.

(** ** [DotAccessDict.sort] *)

(** The body of [sort], with the recursive call [c.sort(key=key,
    reverse=reverse)] as the parameter [rec]. *)
Section sort_body.
Variable rec : heap -> addr -> result (heap * addr).

(** [v.sort(...)] for a [v] that passed [isinstance(v, DotAccessDict)]:
    [sort] is looked up on [v]. *)
Definition sort_instance (h : heap) (v : value) : result (heap * value) :=
  match v with
  | VRef c =>
      let* _ := bound_method h c "sort" in
      let* (h1, r) := rec h c in
      Ok (h1, VRef r)
  | _ => Ok (h, v)
  end.

(** The list comprehension over a list value. *)
Definition sort_item (h : heap) (item : value) : result (heap * value) :=
  if is_dot h item then sort_instance h item else Ok (h, item).

Fixpoint sort_each (l : list value) (h : heap)
  : result (heap * list value) :=
  match l with
  | [] => Ok (h, [])
  | item :: l' =>
      let* (h1, e) := sort_item h item in
      let* (h2, es) := sort_each l' h1 in
      Ok (h2, e :: es)
  end.

Definition sort_value (h : heap) (v : value) : result (heap * value) :=
  if is_dot h v then sort_instance h v
  else match v with
       | VList l => let* (h1, l') := sort_each l h in Ok (h1, VList l')
       | _ => Ok (h, v)
       end.

(** [for k, v in sorted_items: ...], filling the instance [res]. *)
Fixpoint sort_loop (res : addr) (l : list (string * value)) (h : heap)
  : result heap :=
  match l with
  | [] => Ok h
  | (k, v) :: l' =>
      let* (h1, stored) := sort_value h v in
      let* h2 := store_entry h1 res k stored in
      sort_loop res l' h2
  end.
End sort_body.

(** [fuel] bounds the depth of the recursion, as the interpreter's
    recursion limit does. *)
Fixpoint sort (fuel : nat) (h : heap) (self : addr)
  (key : option (string * value -> string)) (reverse : bool)
  : result (heap * addr) :=
  match fuel with
  | 0 => Err RecursionError
  | S n =>
      let* xs := items h self in
      let sorted_items := sorted (item_key key) reverse xs in
      let* (h0, res) := DotAccessDict VNone h in
      let* h' :=
        sort_loop (fun h c => sort n h c key reverse) res sorted_items h0 in
      Ok (h', res)
  end.

(** The call [x.sort(key=key, reverse=reverse)] as a caller writes it. *)
Definition call_sort (fuel : nat) (h : heap) (x : addr)
  (key : option (string * value -> string)) (reverse : bool)
  : result (heap * addr) :=
  let* _ := bound_method h x "sort" in sort fuel h x key reverse.

(** ** The Box variant ([box_sample.py]) *)

(** [Box] comes from the third-party package [box]; a call
    [Box(d, default_box=True)] is kept as the record of its arguments. *)
Record box_call : Type := Box {
  box_arg : list (string * value);
  default_box : bool
}.

(** [data.items()] for [create_ordered_box]: a dict has it, a
    DotAccessDict has it, the other built-in values do not; a SafeNone
    answers [None] for the attribute, and calling that fails. *)
Definition data_items (h : heap) (data : value)
  : result (list (string * value)) :=
  match data with
  | VDict d => Ok d
  | VRef a =>
      match h !! a with
      | Some (ODot o) => Ok (_data o)
      | Some (OSafeNone _) => Err TypeError
      | None => Err Unmodelled
      end
  | _ => Err AttributeError
  end.

(** [Box(OrderedDict(sorted(data.items())), default_box=True)]: the keys
    of one mapping are distinct, so the tuples sort by key. *)
Definition create_ordered_box (h : heap) (data : value) : result box_call :=
  let* its := data_items h data in
  Ok (Box (sorted fst false its) true).

(** [str(k)] for a key of the model: the keys are strings, and [str] of
    a string is the string. *)
Definition str_of_key (k : string) : string := k.

(** [sort_nested_dictionary], with its [key=lambda x: str(x[0])]. *)
Fixpoint sort_nested_dictionary (d : value) : value :=
  match d with
  | VDict its =>
      VDict (sorted (fun x => str_of_key x.1) false
               ((fix each (l : list (string * value)) : list (string * value) :=
                   match l with
                   | [] => []
                   | (k, v) :: l' => (k, sort_nested_dictionary v) :: each l'
                   end) its))
  | VList l => VList (map sort_nested_dictionary l)
  | _ => d
  end.

(** ** The tree an accessor stands for *)

(** A snapshot of what is reachable from a stored value through [_data]:
    an accessor with its entries in order, a list, or a value without
    instances in it. *)
Inductive tree : Type :=
| TDot (its : list (string * tree))
| TList (ts : list tree)
| TVal (v : value).

(** Values as a parser hands them over: no instance inside, and the keys
    of every dict distinct. *)
Fixpoint plain (v : value) : bool :=
  match v with
  | VList l => forallb plain l
  | VDict d =>
      bool_decide (NoDup (map fst d)) &&
      (fix each (d : list (string * value)) : bool :=
         match d with
         | [] => true
         | (_, x) :: d' => plain x && each d'
         end) d
  | VRef _ | VMethod _ _ => false
  | _ => true
  end.

(** No assigned attribute of the instance hides a method of the class. *)
Definition methods_intact (o : dot_obj) : Prop :=
  forall p, is_class_attr p = true -> attrs o !! p = None.

(** [repr lo h e v t]: in heap [h] the value [v] stands for [t], and
    every accessor of it lives at an address from [lo] on, has its
    methods intact and no key that a namespace refuses.  [e] tells
    whether [v] is the value of an entry ([true]) or an element of a list
    value ([false]): the list value of an entry is a [TList], whose
    elements are accessors or plain values. *)
Inductive repr (lo : addr) (h : heap) : bool -> value -> tree -> Prop :=
| repr_dot e a o its :
    lo <= a ->
    h !! a = Some (ODot o) ->
    methods_intact o ->
    NoDup (map fst (_data o)) ->
    Forall (fun k => ns_reserved k = false) (map fst (_data o)) ->
    Forall2 (fun kv kt => kv.1 = kt.1 /\ repr lo h true kv.2 kt.2) (_data o) its ->
    repr lo h e (VRef a) (TDot its)
| repr_list l ts :
    Forall2 (repr lo h false) l ts ->
    repr lo h true (VList l) (TList ts)
| repr_val e v :
    plain v = true -> (e = true -> is_list v = false) ->
    repr lo h e v (TVal v).

(** [x] is an accessor of heap [h]: a DotAccessDict whose [_data] is a
    finite tree of accessors, lists and plain values, none of them with
    a method hidden by an assigned attribute. *)
Definition accessor (h : heap) (x : addr) (its : list (string * tree)) : Prop :=
  repr 0 h true (VRef x) (TDot its).

Fixpoint depth (t : tree) : nat :=
  match t with
  | TDot its =>
      S ((fix each (l : list (string * tree)) : nat :=
            match l with
            | [] => 0
            | (_, c) :: l' => Nat.max (depth c) (each l')
            end) its)
  | TList ts =>
      (fix each (l : list tree) : nat :=
         match l with
         | [] => 0
         | c :: l' => Nat.max (depth c) (each l')
         end) ts
  | TVal _ => 0
  end.

(** *** The tree of a source structure *)

(** Every nested mapping, and every mapping that is an element of a list
    value, becomes an accessor; the entries stay in the order of the
    source. *)
Fixpoint tree_of (v : value) : tree :=
  match v with
  | VDict d =>
      TDot ((fix each (d : list (string * value)) : list (string * tree) :=
               match d with
               | [] => []
               | (k, x) :: d' =>
                   (k, match x with
                       | VDict _ => tree_of x
                       | VList l =>
                           TList ((fix elems (l : list value) : list tree :=
                                     match l with
                                     | [] => []
                                     | e :: l' =>
                                         match e with
                                         | VDict _ => tree_of e
                                         | _ => TVal e
                                         end :: elems l'
                                     end) l)
                       | _ => TVal x
                       end) :: each d'
               end) d)
  | _ => TDot []
  end.

Definition elem_tree (e : value) : tree :=
  match e with
  | VDict _ => tree_of e
  | _ => TVal e
  end.

Definition entry_tree (x : value) : tree :=
  match x with
  | VDict _ => tree_of x
  | VList l => TList (map elem_tree l)
  | _ => TVal x
  end.

(** A source on which the constructor is proved to succeed: plain, and
    no key starts with two underscores (of these [__class__] and
    [__dict__] make the constructor raise; the others are stored, out of
    reach of the modelled attribute access). *)
Fixpoint wf_source (v : value) : bool :=
  plain v &&
  match v with
  | VDict d =>
      (fix each (d : list (string * value)) : bool :=
         match d with
         | [] => true
         | (k, x) :: d' =>
             negb (dunder k) &&
             match x with
             | VDict _ => wf_source x
             | VList l =>
                 (fix elems (l : list value) : bool :=
                    match l with
                    | [] => true
                    | e :: l' =>
                        match e with
                        | VDict _ => wf_source e
                        | _ => true
                        end && elems l'
                    end) l
             | _ => true
             end && each d'
         end) d
  | _ => true
  end.

(** *** Sorting and comparing trees *)

Definition is_tdot (t : tree) : bool :=
  match t with TDot _ => true | _ => false end.

(** What [sort] does, read on trees. *)
Fixpoint tsort (reverse : bool) (t : tree) : tree :=
  match t with
  | TDot its =>
      TDot (sorted fst reverse
              ((fix each (l : list (string * tree)) : list (string * tree) :=
                  match l with
                  | [] => []
                  | (k, c) :: l' => (k, tsort reverse c) :: each l'
                  end) its))
  | TList ts =>
      TList (map (fun e => if is_tdot e then tsort reverse e else e) ts)
  | TVal v => TVal v
  end.

(** The order of the keys of a sorted accessor. *)
Definition key_ordered (reverse : bool) (ks : list string) : Prop :=
  if reverse then StronglySorted (fun a b => String.leb b a = true) ks
  else StronglySorted (fun a b => String.leb a b = true) ks.

(** The deep sort as the specification words it: at every level the
    entries are those of the source, each with its value sorted, in key
    order; a list keeps its elements in place, the accessors among them
    sorted and the others as they are. *)
Inductive is_sort_of (reverse : bool) : tree -> tree -> Prop :=
| sort_of_dot its mid its' :
    Forall2 (fun p q => p.1 = q.1 /\ is_sort_of reverse p.2 q.2) its mid ->
    Permutation mid its' ->
    key_ordered reverse (map fst its') ->
    is_sort_of reverse (TDot its) (TDot its')
| sort_of_list ts ts' :
    Forall2 (fun e e' =>
               (is_tdot e = true -> is_sort_of reverse e e') /\
               (is_tdot e = false -> e' = e)) ts ts' ->
    is_sort_of reverse (TList ts) (TList ts')
| sort_of_val v :
    is_sort_of reverse (TVal v) (TVal v).

(** [==] on values without instances. *)
Definition plain_eq (v w : value) : bool :=
  match val_eq (fun _ _ => Ok false) v w with
  | Ok b => b
  | Err _ => false
  end.

(** Equality as the specification words it: the ordered sequences of
    (key, value) pairs are equal element by element, nested accessors
    compared the same way. *)
Fixpoint spec_equal (t u : tree) : bool :=
  match t, u with
  | TDot a, TDot b =>
      (fix each (a b : list (string * tree)) : bool :=
         match a, b with
         | [], [] => true
         | (k, x) :: a', (k', y) :: b' =>
             String.eqb k k' && spec_equal x y && each a' b'
         | _, _ => false
         end) a b
  | TList a, TList b =>
      (fix each (a b : list tree) : bool :=
         match a, b with
         | [], [] => true
         | x :: a', y :: b' => spec_equal x y && each a' b'
         | _, _ => false
         end) a b
  | TVal v, TVal w => plain_eq v w
  | _, _ => false
  end.

(** ** Predicates of the proofs *)

(** The order [sorted] establishes. *)
Definition key_le {A} (sort_key : A -> string) (x y : A) : Prop :=
  String.leb (sort_key x) (sort_key y) = true.

(** The recursive call of [sort] without a key function. *)
Definition rec_sort (rv : bool) (n : nat) : heap -> addr -> result (heap * addr) :=
  fun h c => sort n h c None rv.

(** The step of [sort] on one stored value: it succeeds, only appends to
    the heap, and its result stands for the sorted tree, on new
    addresses. *)
Definition child_ok (rv : bool) (n : nat) (t : tree) : Prop :=
  forall h v e, repr 0 h e v t ->
  exists h' v',
    (if e then sort_value (rec_sort rv n) h v else sort_item (rec_sort rv n) h v)
      = Ok (h', v') /\
    h `prefix_of` h' /\
    repr (length h) h' e v' (tsort rv t).

(** [==] with recursion depth [n] decides [spec_equal] for a tree [t] on
    the left. *)
Definition eq_ok (n : nat) (h : heap) (t : tree) : Prop :=
  forall e v1 v2 t2,
    repr 0 h e v1 t -> repr 0 h e v2 t2 ->
    py_eq n h v1 v2 = Ok (spec_equal t t2).

(** The conditions [wf_source] puts on one entry of a source mapping. *)
Definition entry_wf (x : value) : Prop :=
  plain x = true /\
  match x with
  | VDict _ => wf_source x = true
  | VList l =>
      Forall (fun e => plain e = true /\ (is_dict e = true -> wf_source e = true)) l
  | _ => True
  end.

(** One source value, built as an accessor of its own. *)
Definition built (v : value) : Prop :=
  wf_source v = true ->
  forall h e, exists h',
    DotAccessDict v h = Ok (h', length h) /\
    h `prefix_of` h' /\
    repr (length h) h' e (VRef (length h)) (tree_of v).

(** One entry value, as [_update_from_dict] stores it. *)
Definition entry_built (x : value) : Prop :=
  forall h, exists h1 v',
    wrap_value h x = Ok (h1, v') /\
    h `prefix_of` h1 /\
    repr (length h) h1 true v' (entry_tree x).

(** What [==] and [sort] read of one instance: its [_data], and what
    the lookups of [items] and [sort] find in its attribute table. *)
Definition stored_obj : Type :=
  list (string * value) * option value * option value.

(** The part of the heap [keys], [items], [values], [==] and [sort]
    read: which addresses hold a DotAccessDict, and that part of it. *)
Definition stored (h : heap) : list (option stored_obj) :=
  (fun o => match o with
            | ODot d => Some (_data d, attrs d !! "items", attrs d !! "sort")
            | OSafeNone _ => None
            end) <$> h.

Definition view {A} (r : result (heap * A))
  : result (list (option stored_obj) * A) :=
  match r with
  | Ok (h, a) => Ok (stored h, a)
  | Err e => Err e
  end.

Definition view_heap (r : result heap)
  : result (list (option stored_obj)) :=
  match r with
  | Ok h => Ok (stored h)
  | Err e => Err e
  end.

(** ** Sample runs *)

Definition sample_source : value :=
  VDict [("c", VDict [("e", VNone)]);
         ("Test1", VDict [("z", VInt 42); ("b", VList [VDict [("y", VInt 1); ("x", VInt 2)]; VInt 7])])].

Definition run_sample : result (heap * addr) := DotAccessDict sample_source [].

Definition sample_heap : heap :=
  match run_sample with
  | Ok (h, _) => h
  | Err _ => []
  end.

(** The mappings [{a: 1, b: 2}] and [{b: 2, a: 1}], and the heap after
    an accessor has been built from each. *)
Definition source_ab : value := VDict [("a", VInt 1); ("b", VInt 2)].
Definition source_ba : value := VDict [("b", VInt 2); ("a", VInt 1)].

Definition order_heap : heap :=
  match DotAccessDict source_ab [] with
  | Ok (h1, _) =>
      match DotAccessDict source_ba h1 with
      | Ok (h2, _) => h2
      | Err _ => []
      end
  | Err _ => []
  end.

(** The sample after [x.c.e = 42] and [x.note = 'n']. *)
Definition assigned_heap : heap :=
  match setattr sample_heap (VRef 1) "e" (VInt 42) with
  | Ok h1 =>
      match setattr h1 (VRef 0) "note" (VStr "n") with
      | Ok h2 => h2
      | Err _ => []
      end
  | Err _ => []
  end.

Definition sample_entries : list (string * tree) :=
  match tree_of sample_source with
  | TDot its => its
  | _ => []
  end.

(** ** Invariants of the heap *)

(** Every DotAccessDict at an address from [lo] on satisfies [P]. *)
Definition all_dots (lo : addr) (P : dot_obj -> Prop) (h : heap) : Prop :=
  forall a o, lo <= a -> h !! a = Some (ODot o) -> P o.

(** [P] holds of a new instance and survives the two statements that
    store an entry. *)
Definition store_closed (P : dot_obj -> Prop) : Prop :=
  P empty_dot /\
  forall o k v, P o -> ns_reserved k = false ->
    P (MkDot (od_set (_data o) k v) (<[k := v]> (_namespace o)) (attrs o)).

(** What the class keeps true of one instance: the keys of [_data] are
    distinct, none is one of the two names a namespace refuses
    ([__class__], [__dict__]), and [_namespace] holds exactly the entries
    of [_data]. *)
Definition obj_inv (o : dot_obj) : Prop :=
  NoDup (map fst (_data o)) /\
  Forall (fun k => ns_reserved k = false) (map fst (_data o)) /\
  forall k, _namespace o !! k = od_get (_data o) k.

(** No attribute was assigned on the instance from outside. *)
Definition no_attrs (o : dot_obj) : Prop := attrs o = ∅.

(** The constructor on [v] keeps [P] on the instances from [lo] on. *)
Definition built_keeps (lo : addr) (P : dot_obj -> Prop) (v : value) : Prop :=
  forall h h' x, all_dots lo P h -> DotAccessDict v h = Ok (h', x) -> all_dots lo P h'.

(** The heap after [DotAccessDict(src)] on an empty heap, and the
    instance at an address. *)
Definition built_heap (src : value) : heap :=
  match DotAccessDict src [] with
  | Ok (h, _) => h
  | Err _ => []
  end.

Definition dot_at (h : heap) (a : addr) : dot_obj :=
  match h !! a with
  | Some (ODot o) => o
  | _ => empty_dot
  end.

(** A source with a key that is also a method name. *)
(** A source with a key that starts with two underscores. *)
Definition dunder_source : value := VDict [("__x", VInt 1); ("a", VInt 2)].

Definition shadow_source : value :=
  VDict [("keys", VInt 1); ("name", VStr "n")].

(** ** Predicates on source structures *)

(** Every dict inside [v], at any depth, has its keys in ascending order. *)
Fixpoint dicts_ordered (v : value) : Prop :=
  match v with
  | VDict d =>
      key_ordered false (map fst d) /\
      (fix each (d : list (string * value)) : Prop :=
         match d with
         | [] => True
         | (_, x) :: d' => dicts_ordered x /\ each d'
         end) d
  | VList l =>
      (fix each (l : list value) : Prop :=
         match l with
         | [] => True
         | x :: l' => dicts_ordered x /\ each l'
         end) l
  | _ => True
  end.

(** No list has a list as an element. *)
Fixpoint flat_lists (v : value) : bool :=
  match v with
  | VDict d =>
      (fix each (d : list (string * value)) : bool :=
         match d with
         | [] => true
         | (_, x) :: d' => flat_lists x && each d'
         end) d
  | VList l =>
      (fix each (l : list value) : bool :=
         match l with
         | [] => true
         | x :: l' => negb (is_list x) && flat_lists x && each l'
         end) l
  | _ => true
  end.

(** ** [main] of [simplenamespace_sample.py] *)

Definition main_path : list string :=
  ["Test1"; "KueTwVaOzF"; "IMNaOXFnhj"; "JSfOMwNdIt"; "BUCvSDjfsc"].

(** [main], from the point where [yaml.safe_load] has parsed
    [data.yaml] into [data].  [load_yaml] returns a DotAccessDict, so the
    [isinstance(loaded_yaml, list)] branch is not taken.  [raise("...")]
    with a string raises TypeError.  The line
    [k = list(loaded_yaml.__dict__.keys())] reads the instance and its
    result is not used.  [loaded_yaml.sort()] is a call through the
    instance.  [fuel] is the recursion limit for [sort] and [==]. *)
Definition main (data : value) (fuel : nat) : result unit :=
  let* (h0, loaded_yaml) := DotAccessDict data [] in
  let* (h1, a) := getattr_chain h0 (VRef loaded_yaml) main_path in
  let* (h2, b) := getattr_chain h1 (VRef loaded_yaml) ["c"; "e"] in
  if truthy h2 b then Err TypeError else
  let* (h3, c) := getattr h2 (VRef loaded_yaml) "c" in
  let* h4 := setattr h3 c "e" a in
  let* (h5, sorted_yaml) := call_sort fuel h4 loaded_yaml None false in
  let* same := py_eq fuel h5 (VRef sorted_yaml) (VRef loaded_yaml) in
  if same then Err TypeError else Ok tt.

(** * Properties *)

(** ** Attribute access *)

Lemma DotAccessDict_non_dict (data : value) (h : heap) :
  is_dict data = false ->
  DotAccessDict data h = Ok (h ++ [ODot empty_dot], length h).
Proof.
  intros Hd. destruct data; simpl in *; try discriminate;
    repeat match goal with |- context [if ?b then _ else _] => destruct b end;
    reflexivity.
Qed.

Lemma DotAccessDict_empty_dict (h : heap) :
  DotAccessDict (VDict []) h = Ok (h ++ [ODot empty_dot], length h).
Proof. reflexivity. Qed.

Lemma lookup_new (h : heap) (o : obj) : (h ++ [o]) !! length h = Some o.
Proof. rewrite lookup_app_r by lia. by rewrite Nat.sub_diag. Qed.

(** ** Method lookup *)

Lemma methods_intact_no_attrs (o : dot_obj) : attrs o = ∅ -> methods_intact o.
Proof. intros Ho p _. rewrite Ho. apply lookup_empty. Qed.

Lemma bound_method_intact (h : heap) (a : addr) (o : dot_obj) (name : string) :
  h !! a = Some (ODot o) -> methods_intact o -> is_class_attr name = true ->
  bound_method h a name = Ok tt.
Proof. intros Ha Ho Hn. unfold bound_method. by rewrite Ha, (Ho _ Hn). Qed.

Lemma dunder_not_reserved (k : string) : dunder k = false -> ns_reserved k = false.
Proof.
  unfold ns_reserved. intros Hk.
  destruct (String.eqb_spec k "__class__") as [->|]; [discriminate Hk|].
  destruct (String.eqb_spec k "__dict__") as [->|]; [discriminate Hk|done].
Qed.

(** A miss on a DotAccessDict allocates a SafeNone; the next access on it
    gives [None]; the access after that raises. *)
Lemma missing_chain_raises (h : heap) (x : addr) (o : dot_obj) (p1 p2 p3 : string) :
  h !! x = Some (ODot o) ->
  plain_name p1 = true -> plain_name p2 = true -> plain_name p3 = true ->
  attrs o !! p1 = None -> is_class_attr p1 = false -> _namespace o !! p1 = None ->
  getattr_chain h (VRef x) [p1] = Ok (h ++ [OSafeNone ∅], VRef (length h)) /\
  getattr_chain h (VRef x) [p1; p2] = Ok (h ++ [OSafeNone ∅], VNone) /\
  getattr_chain h (VRef x) [p1; p2; p3] = Err AttributeError.
Proof.
  intros Hx H1 H2 H3 Ha Hc Hn.
  assert (G1 : getattr h (VRef x) p1 = Ok (h ++ [OSafeNone ∅], VRef (length h))).
  { unfold getattr. rewrite H1, Hx, Ha, Hc, Hn. reflexivity. }
  assert (G2 : getattr (h ++ [OSafeNone ∅]) (VRef (length h)) p2
               = Ok (h ++ [OSafeNone ∅], VNone)).
  { unfold getattr. rewrite H2, lookup_new. simpl. by rewrite lookup_empty. }
  assert (G3 : getattr (h ++ [OSafeNone ∅]) VNone p3 = Err AttributeError).
  { unfold getattr. by rewrite H3. }
  repeat split; simpl; rewrite G1; simpl; try reflexivity;
    rewrite G2; simpl; try reflexivity; by rewrite G3.
Qed.

(** C1 (the code departs from it): on the accessor built from an empty
    mapping the chain [x.a.b.c] over three missing segments raises
    AttributeError: [x.a] is a SafeNone, [x.a.b] is [None], and [None]
    has no attribute [c]. *)
Theorem C1_chain_of_three_raises :
  exists h x,
    DotAccessDict (VDict []) [] = Ok (h, x) /\
    (exists h1 a, getattr_chain h (VRef x) ["a"] = Ok (h1, VRef a)
                  /\ h1 !! a = Some (OSafeNone ∅)
                  /\ truthy h1 (VRef a) = false) /\
    (exists h2, getattr_chain h (VRef x) ["a"; "b"] = Ok (h2, VNone)) /\
    getattr_chain h (VRef x) ["a"; "b"; "c"] = Err AttributeError.
Proof.
  eexists _, _. split; [reflexivity|].
  split; [|split].
  - eexists _, _. split; [reflexivity|]. split; reflexivity.
  - eexists. reflexivity.
  - reflexivity.
Qed.

(** ** Construction from something that is no mapping *)

(** C3 (the code departs from it): [create_ordered_box(None)], which is
    what [load_yaml_string] runs on an empty document, calls
    [None.items()] and raises AttributeError instead of giving an empty
    accessor. *)
Theorem C3_box_rejects_none :
  ~ (exists b, create_ordered_box [] VNone = Ok b).
Proof. intros [b Hb]. discriminate Hb. Qed.

(** The DotAccessDict constructor has the guard: for every input that
    is not a mapping it succeeds and yields a new accessor without keys.
    [create_ordered_box] raises AttributeError on None, a scalar or a
    sequence. *)
Lemma DotAccessDict_non_mapping_source (data : value) (h : heap) :
  is_dict data = false ->
  (exists h' x,
     DotAccessDict data h = Ok (h', x) /\
     h !! x = None /\
     keys h' x = Ok [] /\ items h' x = Ok [] /\ values h' x = Ok [] /\
     accessor h' x []) /\
  (match data with
   | VNone | VBool _ | VInt _ | VStr _ | VList _ =>
       create_ordered_box h data = Err AttributeError
   | _ => True
   end).
Proof.
  intros Hd. split.
  - exists (h ++ [ODot empty_dot]), (length h).
    split; [by apply DotAccessDict_non_dict|].
    split; [apply lookup_ge_None_2; lia|].
    unfold keys, items, values, get_dot. rewrite lookup_new. simpl.
    repeat split; try reflexivity.
    eapply repr_dot with (o := empty_dot); simpl;
      [lia | apply lookup_new | by apply methods_intact_no_attrs
      | constructor | constructor | constructor].
  - destruct data; try exact I; reflexivity.
Qed.

Lemma DotAccessDict_non_mapping_example :
  (exists h' x,
     DotAccessDict (VList [VInt 1]) [] = Ok (h', x) /\
     ([] : heap) !! x = None /\
     keys h' x = Ok [] /\ items h' x = Ok [] /\ values h' x = Ok [] /\
     accessor h' x []) /\
  create_ordered_box [] (VList [VInt 1]) = Err AttributeError.
Proof. apply (DotAccessDict_non_mapping_source (VList [VInt 1]) []). reflexivity. Qed.

(** ** Assignment *)

(** C8, as the claim states it, fails: a value the constructor stored
    under [p] is not overwritten by [x.p = v].  After [x.c = 42] on the
    accessor of [{c: 1}], [x.c] is 42 while [x.get('c')] is still 1 and
    [x.items()] is still [[('c', 1)]]. *)
Lemma C8_prior_value_not_overwritten :
  exists h x h',
    DotAccessDict (VDict [("c", VInt 1)]) [] = Ok (h, x) /\
    setattr h (VRef x) "c" (VInt 42) = Ok h' /\
    getattr h' (VRef x) "c" = Ok (h', VInt 42) /\
    call_get h' x "c" VNone = Ok (VInt 1) /\
    call_items h' x = Ok [("c", VInt 1)] /\
    call_values h' x = Ok [VInt 1].
Proof. eexists _, _, _. repeat split; reflexivity. Qed.

(** C8 (amended): after [x.p = v] the attribute table of [x] holds [v]
    itself under [p], in place of whatever was assigned there before, and
    [x.p] on the same instance returns [v]; nothing else changes: the
    ordered store and the namespace of [x] are as they were, so a value
    the constructor stored under [p] is shadowed, not overwritten, and
    for a [p] that is no method name [x.get(p)] and [x.items()] return
    what they returned before. *)
Theorem C8_assignment_visible (h : heap) (x : addr) (o : dot_obj)
  (p : string) (v : value) :
  plain_name p = true ->
  h !! x = Some (ODot o) ->
  exists h',
    setattr h (VRef x) p v = Ok h' /\
    h' !! x = Some (ODot (MkDot (_data o) (_namespace o) (<[p := v]> (attrs o)))) /\
    (forall a, a <> x -> h' !! a = h !! a) /\
    getattr h' (VRef x) p = Ok (h', v) /\
    (is_class_attr p = false ->
     (forall d, call_get h' x p d = call_get h x p d) /\
     call_items h' x = call_items h x).
Proof.
  intros Hp Hx.
  assert (Hlt : x < length h) by (eapply lookup_lt_Some; eauto).
  eexists. split.
  { unfold setattr. rewrite Hp, Hx. reflexivity. }
  split; [by apply list_lookup_insert_eq|].
  split; [intros a Ha; by apply list_lookup_insert_ne|].
  split.
  { unfold getattr. rewrite Hp. simpl.
    rewrite list_lookup_insert_eq by done. simpl.
    by rewrite lookup_insert_eq. }
  intros Hc.
  assert (Hne : forall q, is_class_attr q = true -> p <> q).
  { intros q Hq ->. congruence. }
  unfold call_get, call_items, bound_method, get, items, get_dot.
  rewrite list_lookup_insert_eq by done. rewrite Hx. simpl.
  rewrite !lookup_insert_ne by (by apply Hne). done.
Qed.

(** ** Absent values *)

(** C9, as the claim states it, fails: two missing-path accesses on one
    accessor give two SafeNone instances, and [==] between them is false. *)
Lemma C9_two_absent_values_unequal :
  exists h x h1 a h2 b,
    DotAccessDict (VDict []) [] = Ok (h, x) /\
    getattr h (VRef x) "p" = Ok (h1, VRef a) /\
    getattr h1 (VRef x) "q" = Ok (h2, VRef b) /\
    h2 !! a = Some (OSafeNone ∅) /\ h2 !! b = Some (OSafeNone ∅) /\
    py_eq 1 h2 (VRef a) (VRef b) = Ok false.
Proof. eexists _, _, _, _, _, _. repeat split; reflexivity. Qed.

(** C9 (amended): any two absent values are falsy and print as the same
    text; [SafeNone] defines no [__eq__], so [==] between two of them is
    identity: an absent value equals itself and no other instance. *)
Theorem C9_absent_values (fuel : nat) (h : heap) (a b : addr)
  (sa sb : gmap string value) :
  h !! a = Some (OSafeNone sa) ->
  h !! b = Some (OSafeNone sb) ->
  truthy h (VRef a) = false /\ truthy h (VRef b) = false /\
  SafeNone_str = "None" /\
  py_eq fuel h (VRef a) (VRef b) = Ok (Nat.eqb a b).
Proof.
  intros Ha Hb. unfold py_eq, ref_cmp. simpl. rewrite Ha, Hb. auto.
Qed.

Lemma C9_absent_values_witness :
  truthy [OSafeNone ∅; OSafeNone ∅] (VRef 0) = false /\
  truthy [OSafeNone ∅; OSafeNone ∅] (VRef 1) = false /\
  SafeNone_str = "None" /\
  py_eq 0 [OSafeNone ∅; OSafeNone ∅] (VRef 0) (VRef 1) = Ok (Nat.eqb 0 1).
Proof.
  apply (C9_absent_values 0 [OSafeNone ∅; OSafeNone ∅] 0 1 ∅ ∅); reflexivity.
Defined.

(** ** The order on keys and [sorted] *)

Lemma ascii_compare_trans (a b c : Ascii.ascii) (r : comparison) :
  Ascii.compare a b = r -> Ascii.compare b c = r -> Ascii.compare a c = r.
Proof.
  unfold Ascii.compare. destruct r; intros H1 H2.
  - apply N.compare_eq_iff in H1, H2. apply N.compare_eq_iff. congruence.
  - rewrite N.compare_lt_iff in *. lia.
  - rewrite N.compare_gt_iff in *. lia.
Qed.

Lemma string_compare_lt_trans (a b c : string) :
  String.compare a b = Lt -> String.compare b c = Lt -> String.compare a c = Lt.
Proof.
  revert b c. induction a as [|x a IH]; intros [|y b] [|z c]; simpl; try done.
  destruct (Ascii.compare x y) eqn:Hxy; try done;
    destruct (Ascii.compare y z) eqn:Hyz; try done; intros H1 H2.
  - rewrite (ascii_compare_trans _ _ _ _ Hxy Hyz). eauto.
  - apply Ascii.compare_eq_iff in Hxy. subst. by rewrite Hyz.
  - apply Ascii.compare_eq_iff in Hyz. subst. by rewrite Hxy.
  - by rewrite (ascii_compare_trans _ _ _ _ Hxy Hyz).
Qed.

Lemma string_leb_trans (a b c : string) :
  String.leb a b = true -> String.leb b c = true -> String.leb a c = true.
Proof.
  unfold String.leb.
  destruct (String.compare a b) eqn:Hab; try done;
    destruct (String.compare b c) eqn:Hbc; try done; intros _ _.
  - apply String.compare_eq_iff in Hab, Hbc. subst.
    destruct (String.compare c c) eqn:Hcc; try done.
    pose proof (String.compare_antisym c c) as H.
    rewrite Hcc in H. discriminate H.
  - apply String.compare_eq_iff in Hab. subst. by rewrite Hbc.
  - apply String.compare_eq_iff in Hbc. subst. by rewrite Hab.
  - by rewrite (string_compare_lt_trans _ _ _ Hab Hbc).
Qed.

Lemma string_leb_refl (a : string) : String.leb a a = true.
Proof. destruct (String.leb_total a a); done. Qed.

Section sorted_facts.
Context {A : Type}.
Variable sort_key : A -> string.

Lemma insert_sorted_perm (x : A) (l : list A) :
  Permutation (insert_sorted sort_key x l) (x :: l).
Proof.
  induction l as [|y l IH]; simpl; [done|].
  destruct (String.leb _ _); [done|].
  rewrite IH. apply perm_swap.
Qed.

Lemma sorted_asc_perm (l : list A) : Permutation (sorted_asc sort_key l) l.
Proof.
  induction l as [|x l IH]; simpl; [done|].
  rewrite insert_sorted_perm. by constructor.
Qed.

Lemma sorted_perm (rv : bool) (l : list A) :
  Permutation (sorted sort_key rv l) l.
Proof.
  unfold sorted. destruct rv; [|apply sorted_asc_perm].
  rewrite <- Permutation_rev, sorted_asc_perm. symmetry. apply Permutation_rev.
Qed.

Lemma insert_sorted_ordered (x : A) (l : list A) :
  StronglySorted (key_le sort_key) l -> StronglySorted (key_le sort_key) (insert_sorted sort_key x l).
Proof.
  induction 1 as [|y l Hs IH Hy]; simpl.
  - repeat constructor.
  - destruct (String.leb (sort_key x) (sort_key y)) eqn:Hxy.
    + constructor; [by constructor|].
      constructor; [done|].
      eapply Forall_impl; [exact Hy|]. intros z Hz. unfold key_le in *.
      eapply string_leb_trans; eauto.
    + constructor; [done|].
      rewrite insert_sorted_perm. constructor; [|done].
      unfold key_le. destruct (String.leb_total (sort_key x) (sort_key y)); congruence.
Qed.

Lemma sorted_asc_ordered (l : list A) :
  StronglySorted (key_le sort_key) (sorted_asc sort_key l).
Proof.
  induction l; simpl; [constructor|by apply insert_sorted_ordered].
Qed.

Lemma sorted_asc_id (l : list A) :
  StronglySorted (key_le sort_key) l -> sorted_asc sort_key l = l.
Proof.
  induction 1 as [|x l Hs IH Hx]; simpl; [done|].
  rewrite IH. destruct l as [|y l]; simpl; [done|].
  apply Forall_cons in Hx as [Hxy _]. unfold key_le in Hxy. by rewrite Hxy.
Qed.

Lemma sorted_idem (rv : bool) (l : list A) :
  sorted sort_key rv (sorted sort_key rv l) = sorted sort_key rv l.
Proof.
  unfold sorted. destruct rv.
  - rewrite rev_involutive.
    by rewrite (sorted_asc_id _ (sorted_asc_ordered _)).
  - apply sorted_asc_id, sorted_asc_ordered.
Qed.
End sorted_facts.

Lemma strongly_sorted_rev {A} (R : A -> A -> Prop) (l : list A) :
  StronglySorted R l -> StronglySorted (fun a b => R b a) (rev l).
Proof.
  induction 1 as [|x l Hs IH Hx]; simpl; [constructor|].
  apply StronglySorted_app_2; [|done|repeat constructor].
  intros a b Ha Hb. apply list_elem_of_singleton in Hb as ->.
  rewrite List.Forall_forall in Hx. apply Hx.
  apply list_elem_of_In in Ha. by apply in_rev.
Qed.

Lemma strongly_sorted_map {A B} (f : A -> B) (R : B -> B -> Prop) (l : list A) :
  StronglySorted (fun a b => R (f a) (f b)) l -> StronglySorted R (map f l).
Proof.
  induction 1 as [|x l Hs IH Hx]; simpl; constructor; [done|].
  rewrite List.Forall_forall in *. intros y Hy.
  apply in_map_iff in Hy as (z & <- & Hz). by apply Hx.
Qed.

Lemma Forall2_rev_intro {A B} (R : A -> B -> Prop) (l : list A) (m : list B) :
  Forall2 R l m -> Forall2 R (rev l) (rev m).
Proof.
  induction 1; simpl; [constructor|].
  apply Forall2_app; [done|by repeat constructor].
Qed.

Lemma sorted_key_ordered {A} (rv : bool) (l : list (string * A)) :
  key_ordered rv (map fst (sorted fst rv l)).
Proof.
  unfold key_ordered, sorted. destruct rv.
  - apply strongly_sorted_map.
    apply (strongly_sorted_rev (key_le fst)), sorted_asc_ordered.
  - apply strongly_sorted_map. apply (sorted_asc_ordered fst).
Qed.

(** Sorting looks at the keys only. *)
Section sorted_rel.
Context {A B : Type}.
Variables (ka : A -> string) (kb : B -> string) (R : A -> B -> Prop).
Hypothesis R_key : forall x y, R x y -> ka x = kb y.

Lemma insert_sorted_rel x y l m :
  R x y -> Forall2 R l m ->
  Forall2 R (insert_sorted ka x l) (insert_sorted kb y m).
Proof.
  intros Hxy Hlm. induction Hlm as [|x' y' l m Hxy' Hlm IH]; simpl.
  - by repeat constructor.
  - rewrite (R_key _ _ Hxy), (R_key _ _ Hxy').
    destruct (String.leb _ _); by repeat constructor.
Qed.

Lemma sorted_asc_rel l m :
  Forall2 R l m -> Forall2 R (sorted_asc ka l) (sorted_asc kb m).
Proof.
  induction 1; simpl; [constructor|by apply insert_sorted_rel].
Qed.

Lemma sorted_rel rv l m :
  Forall2 R l m -> Forall2 R (sorted ka rv l) (sorted kb rv m).
Proof.
  intros H. unfold sorted. destruct rv; [|by apply sorted_asc_rel].
  apply Forall2_rev_intro, sorted_asc_rel, Forall2_rev_intro, H.
Qed.
End sorted_rel.

Lemma sorted_map {A B} (ka : A -> string) (kb : B -> string) (f : A -> B)
  (rv : bool) (l : list A) :
  (forall x, kb (f x) = ka x) ->
  sorted kb rv (map f l) = map f (sorted ka rv l).
Proof.
  intros Hk.
  assert (H : Forall2 (fun x y => y = f x) (sorted ka rv l) (sorted kb rv (map f l))).
  { apply sorted_rel; [intros x y ->; by rewrite Hk|].
    induction l; simpl; by constructor. }
  revert H. generalize (sorted ka rv l) (sorted kb rv (map f l)).
  induction 1; simpl; congruence.
Qed.

(** ** Induction on trees and values *)

Lemma tree_ind' (P : tree -> Prop) :
  (forall its, Forall (fun kt => P kt.2) its -> P (TDot its)) ->
  (forall ts, Forall P ts -> P (TList ts)) ->
  (forall v, P (TVal v)) ->
  forall t, P t.
Proof.
  intros Hdot Hlist Hval.
  fix IH 1. intros [its|ts|v].
  - apply Hdot. induction its as [|[k c] its IHl]; constructor; [apply IH|exact IHl].
  - apply Hlist. induction ts as [|c ts IHl]; constructor; [apply IH|exact IHl].
  - apply Hval.
Qed.

Lemma value_ind' (P : value -> Prop) :
  P VNone -> (forall b, P (VBool b)) -> (forall z, P (VInt z)) ->
  (forall s, P (VStr s)) ->
  (forall l, Forall P l -> P (VList l)) ->
  (forall d, Forall (fun kv => P kv.2) d -> P (VDict d)) ->
  (forall a, P (VRef a)) -> (forall a n, P (VMethod a n)) ->
  forall v, P v.
Proof.
  intros Hn Hb Hi Hs Hl Hd Hr Hm.
  fix IH 1.
  intros [| | | |l|d|a|a n];
    [apply Hn|apply Hb|apply Hi|apply Hs| | |apply Hr|apply Hm].
  - apply Hl. induction l as [|c l IHl]; constructor; [apply IH|exact IHl].
  - apply Hd. induction d as [|[k c] d IHl]; constructor; [apply IH|exact IHl].
Qed.

Lemma Forall2_Forall_r {A B} (P : B -> Prop) (R R' : A -> B -> Prop) l m :
  Forall P m -> (forall x y, P y -> R x y -> R' x y) ->
  Forall2 R l m -> Forall2 R' l m.
Proof.
  intros HP Himp HR. induction HR as [|x y l m Hxy HR IH]; [constructor|].
  apply Forall_cons in HP as [Hy HP]. constructor; auto.
Qed.

(** ** [repr] under changes of the heap *)

Lemma repr_mono (lo lo' : addr) (h h' : heap) :
  lo' <= lo ->
  (forall a o, lo <= a -> h !! a = Some o -> h' !! a = Some o) ->
  forall t e v, repr lo h e v t -> repr lo' h' e v t.
Proof.
  intros Hlo Hagree. induction t as [its IH|ts IH|w] using tree_ind';
    intros e v Hr; inversion Hr; subst.
  - eapply repr_dot; eauto; [lia|].
    eapply Forall2_Forall_r; [exact IH| |eassumption].
    simpl. intros x y Hy [Hk Hxy]. auto.
  - constructor. eapply Forall2_Forall_r; [exact IH| |eassumption]. auto.
  - by constructor.
Qed.

Lemma repr_app (lo : addr) (h ext : heap) (t : tree) (e : bool) (v : value) :
  repr lo h e v t -> repr lo (h ++ ext) e v t.
Proof.
  apply repr_mono; [lia|]. intros a o _ Ha. by apply lookup_app_l_Some.
Qed.

Lemma repr_insert_below (lo a : addr) (o : obj) (h : heap) (t : tree)
  (e : bool) (v : value) :
  a < lo -> repr lo h e v t -> repr lo (<[a := o]> h) e v t.
Proof.
  intros Ha. apply repr_mono; [lia|]. intros b ob Hb Hl.
  rewrite list_lookup_insert_ne by lia. done.
Qed.

Lemma repr_weaken (lo lo' : addr) (h : heap) (t : tree) (e : bool) (v : value) :
  lo' <= lo -> repr lo h e v t -> repr lo' h e v t.
Proof. intros Hlo. apply repr_mono; auto. Qed.

Lemma Forall2_functional {A B} (R R' : A -> B -> Prop) l m m' :
  Forall (fun y => forall x y', R x y -> R' x y' -> y = y') m ->
  Forall2 R l m -> Forall2 R' l m' -> m = m'.
Proof.
  intros HP HR. revert m' HP.
  induction HR as [|x y l m Hxy HR IH]; intros m' HP HR'; inversion HR'; subst;
    [done|].
  apply Forall_cons in HP as [Hy HP]. f_equal; eauto.
Qed.

(** A value stands for at most one tree. *)
Lemma repr_functional (lo lo' : addr) (h : heap) :
  forall t e v u, repr lo h e v t -> repr lo' h e v u -> t = u.
Proof.
  induction t as [its IH|ts IH|w] using tree_ind';
    intros e v u Hr Hu; inversion Hr; subst; inversion Hu; subst;
    try discriminate; try done;
    try match goal with
        | H : true = true -> is_list _ = false |- _ =>
            specialize (H eq_refl); discriminate H
        end.
  - match goal with
    | H1 : h !! ?a = Some (ODot ?o1), H2 : h !! ?a = Some (ODot ?o2) |- _ =>
        rewrite H1 in H2; injection H2 as <-
    end.
    f_equal. eapply Forall2_functional; [|eassumption|eassumption].
    eapply Forall_impl; [exact IH|]. simpl.
    intros [k t] IHt [k' x] [k'' t'] [Hk Hx] [Hk' Hx']. simpl in *. subst.
    f_equal. eauto.
  - f_equal. eapply Forall2_functional; [|eassumption|eassumption].
    eapply Forall_impl; [exact IH|]. simpl. eauto.
Qed.

(** ** Heap bookkeeping *)

Lemma prefix_insert (h hc : heap) (a : addr) (o : obj) :
  h `prefix_of` hc -> length h <= a -> h `prefix_of` <[a := o]> hc.
Proof.
  intros [ext ->] Ha. exists (<[a - length h := o]> ext).
  by rewrite insert_app_r_alt.
Qed.

Lemma repr_prefix (lo : addr) (h h' : heap) (t : tree) (e : bool) (v : value) :
  h `prefix_of` h' -> repr lo h e v t -> repr lo h' e v t.
Proof. intros [ext ->]. apply repr_app. Qed.

Lemma od_set_fresh (d : list (string * value)) (k : string) (v : value) :
  k ∉ map fst d -> od_set d k v = d ++ [(k, v)].
Proof.
  induction d as [|[k' v'] d IH]; simpl; [done|]. intros Hk.
  apply not_elem_of_cons in Hk as [Hne Hk].
  destruct (String.eqb_spec k' k); [congruence|]. by rewrite IH.
Qed.

Lemma store_entry_spec (h : heap) (res : addr) (o : dot_obj) (k : string) (v : value) :
  h !! res = Some (ODot o) -> ns_reserved k = false ->
  store_entry h res k v =
    Ok (<[res := ODot (MkDot (od_set (_data o) k v)
                             (<[k := v]> (_namespace o)) (attrs o))]> h).
Proof.
  intros Hres Hk. apply orb_false_elim in Hk as [Hc Hd].
  unfold store_entry, get_dot, ns_setattr. by rewrite Hres, Hc, Hd.
Qed.

Lemma plain_not_dot (h : heap) (v : value) : plain v = true -> is_dot h v = false.
Proof. by destruct v. Qed.

Lemma repr_is_dot (lo : addr) (h : heap) (e : bool) (v : value) (its : list (string * tree)) :
  repr lo h e v (TDot its) -> is_dot h v = true.
Proof.
  inversion 1; subst; simpl.
  match goal with H : h !! _ = Some _ |- _ => by rewrite H end.
Qed.

(** ** What [sort] computes *)

Section sort_spec.
Variable rv : bool.

Lemma sort_each_spec (n : nat) (ts : list tree) :
  Forall (child_ok rv n) ts ->
  forall l h, Forall2 (repr 0 h false) l ts ->
  exists h' l',
    sort_each (rec_sort rv n) l h = Ok (h', l') /\
    h `prefix_of` h' /\
    Forall2 (repr (length h) h' false) l' (map (tsort rv) ts).
Proof.
  induction 1 as [|t ts Ht Hts IH]; intros l h Hl; inversion Hl; subst.
  - exists h, []. simpl. repeat split; [done|constructor].
  - match goal with Hx : repr 0 h false ?x t, Hr : Forall2 _ ?l' ts |- _ =>
      destruct (Ht h x false Hx) as (h1 & x' & Hrun & Hpre & Hrep);
      destruct (IH l' h1) as (h2 & l2 & Hrun2 & Hpre2 & Hrep2)
    end.
    { eapply Forall2_impl; [eassumption|]. intros ? ?. by apply repr_prefix. }
    exists h2, (x' :: l2). simpl. rewrite Hrun. simpl. rewrite Hrun2. simpl.
    split; [done|]. split; [by etrans|].
    constructor; [by eapply repr_prefix|].
    eapply Forall2_impl; [exact Hrep2|]. intros ? ?.
    apply repr_weaken. by apply prefix_length.
Qed.

Lemma sort_loop_spec (n : nat) (h0 : heap) (res : addr) (ts : list (string * tree)) :
  length h0 <= res ->
  Forall (fun kt => child_ok rv n kt.2) ts ->
  forall l hc od dts,
    Forall2 (fun kv kt => kv.1 = kt.1 /\ repr 0 h0 true kv.2 kt.2) l ts ->
    h0 `prefix_of` hc ->
    hc !! res = Some (ODot od) ->
    Forall2 (fun kv kt => kv.1 = kt.1 /\ repr (S res) hc true kv.2 kt.2)
            (_data od) dts ->
    NoDup (map fst (_data od) ++ map fst l) ->
    Forall (fun k => ns_reserved k = false) (map fst l) ->
    exists h' od',
      sort_loop (rec_sort rv n) res l hc = Ok h' /\
      h0 `prefix_of` h' /\
      h' !! res = Some (ODot od') /\
      attrs od' = attrs od /\
      map fst (_data od') = map fst (_data od) ++ map fst l /\
      Forall2 (fun kv kt => kv.1 = kt.1 /\ repr (S res) h' true kv.2 kt.2)
              (_data od') (dts ++ map (fun kt => (kt.1, tsort rv kt.2)) ts).
Proof.
  intros Hres. induction 1 as [|[k' tc] ts Ht Hts IH];
    intros l hc od dts Hl Hpre Hlook Hdone Hnd Hdu; inversion Hl as [|[k v] ? l' ? [Hk Hv] Hl']; subst.
  - exists hc, od. simpl. rewrite !app_nil_r. done.
  - simpl in *. subst k'.
    assert (Hlt : res < length hc) by (eapply lookup_lt_Some; eauto).
    destruct (Ht hc v true) as (h1 & v' & Hrun & Hpre1 & Hrep);
      [by eapply repr_prefix|].
    simpl in Hrun. rewrite Hrun. simpl.
    assert (Hlook1 : h1 !! res = Some (ODot od))
      by (eapply prefix_lookup_Some; eauto).
    apply Forall_cons in Hdu as [Hdk Hdu].
    rewrite (store_entry_spec _ _ _ _ _ Hlook1 Hdk). simpl.
    assert (Hfresh : k ∉ map fst (_data od)).
    { apply NoDup_app in Hnd as (_ & Hnd & _). intros Hin.
      apply (Hnd k Hin). left. }
    rewrite (od_set_fresh _ _ _ Hfresh).
    assert (Hlt1 : res < length h1)
      by (eapply lookup_lt_Some; eauto).
    edestruct (IH l' (<[res := ODot (MkDot (_data od ++ [(k, v')])
                                  (<[k := v']> (_namespace od)) (attrs od))]> h1)
                 (MkDot (_data od ++ [(k, v')]) (<[k := v']> (_namespace od)) (attrs od))
                 (dts ++ [(k, tsort rv tc)]))
      as (h' & od' & Hrun' & Hpre' & Hlook' & Hattrs' & Hkeys' & Hrep'); simpl.
    + done.
    + apply prefix_insert; [by etrans|done].
    + by apply list_lookup_insert_eq.
    + apply Forall2_app.
      * eapply Forall2_impl; [exact Hdone|]. intros ? ? [? ?]. split; [done|].
        apply repr_insert_below; [lia|]. by eapply repr_prefix.
      * repeat constructor; simpl.
        apply repr_insert_below; [lia|].
        eapply repr_weaken; [|exact Hrep]. lia.
    + rewrite map_app. simpl. by rewrite <- app_assoc.
    + done.
    + exists h', od'. split; [done|]. split; [done|]. split; [done|].
      split; [done|]. split.
      * simpl in Hkeys'. rewrite Hkeys', map_app. simpl. by rewrite <- app_assoc.
      * by rewrite <- app_assoc in Hrep'.
Qed.
End sort_spec.

Lemma NoDup_perm {A} (l l' : list A) : Permutation l l' -> NoDup l -> NoDup l'.
Proof. intros HP H. by rewrite <- HP. Qed.

Lemma tsort_dot (rv : bool) (its : list (string * tree)) :
  tsort rv (TDot its) =
  TDot (sorted fst rv (map (fun kt => (kt.1, tsort rv kt.2)) its)).
Proof.
  simpl. do 2 f_equal. induction its as [|[k c] its IH]; simpl; congruence.
Qed.

Lemma depth_dot (its : list (string * tree)) (n : nat) :
  depth (TDot its) <= S n -> Forall (fun kt => depth kt.2 <= n) its.
Proof.
  simpl. intros H. apply le_S_n in H. revert H.
  induction its as [|[k c] its IH]; intros H; constructor; simpl in *; [lia|].
  apply IH. lia.
Qed.

Lemma depth_list (ts : list tree) (n : nat) :
  depth (TList ts) <= n -> Forall (fun t => depth t <= n) ts.
Proof.
  simpl. induction ts as [|c ts IH]; intros H; constructor; [lia|].
  apply IH. lia.
Qed.

Lemma sort_value_spec (rv : bool) (t : tree) :
  forall n, depth t <= n -> child_ok rv n t.
Proof.
  induction t as [its IH|ts IH|w] using tree_ind'; intros n Hn h v e Hr.
  - (* an accessor *)
    assert (Hdot := repr_is_dot _ _ _ _ _ Hr).
    inversion Hr as [e' a o its' Hlo Hlook Hmi Hnd Hdu Hents| |]; subst.
    destruct n as [|n]; [simpl in Hn; lia|].
    apply depth_dot in Hn.
    assert (Hch : Forall (fun kt => child_ok rv n kt.2) (sorted fst rv its)).
    { eapply Permutation_Forall; [symmetry; apply sorted_perm|].
      rewrite List.Forall_forall in *. intros kt Hkt. apply IH; auto. }
    destruct (sort_loop_spec rv n h (length h) (sorted fst rv its) (le_n _) Hch
                (sorted fst rv (_data o)) (h ++ [ODot empty_dot]) empty_dot [])
      as (h' & od' & Hrun & Hpre & Hlook' & Hattrs & Hkeys & Hrep).
    { apply (sorted_rel fst fst); [by intros ? ? [? ?]|done]. }
    { by apply prefix_app_r. }
    { apply lookup_new. }
    { constructor. }
    { simpl. eapply NoDup_perm; [|exact Hnd].
      apply Permutation_map. symmetry. apply sorted_perm. }
    { eapply Permutation_Forall; [|exact Hdu].
      apply Permutation_map. symmetry. apply sorted_perm. }
    simpl in Hkeys, Hrep.
    assert (Hsort : sort (S n) h a None rv = Ok (h', length h)).
    { simpl. unfold items, get_dot. rewrite Hlook. simpl.
      fold (rec_sort rv n). by rewrite Hrun. }
    exists h', (VRef (length h)).
    split.
    { destruct e; unfold sort_value, sort_item; rewrite Hdot; simpl;
        rewrite (bound_method_intact _ _ _ "sort" Hlook Hmi eq_refl); simpl;
        unfold rec_sort at 1; by rewrite Hsort. }
    split; [done|].
    rewrite tsort_dot.
    rewrite (sorted_map fst fst (fun kt => (kt.1, tsort rv kt.2))) by done.
    eapply repr_dot; [done|exact Hlook'| | | |].
    + by apply methods_intact_no_attrs.
    + rewrite Hkeys. eapply NoDup_perm; [|exact Hnd].
      apply Permutation_map. symmetry. apply sorted_perm.
    + rewrite Hkeys. eapply Permutation_Forall; [|exact Hdu].
      apply Permutation_map. symmetry. apply sorted_perm.
    + eapply Forall2_impl; [exact Hrep|]. intros ? ? [? ?]. split; [done|].
      eapply repr_weaken; [|eassumption]. lia.
  - (* a list value *)
    inversion Hr as [|l ts' Hl|e' w Hpl Hnl]; subst.
    apply depth_list in Hn.
    assert (Hch : Forall (child_ok rv n) ts).
    { rewrite List.Forall_forall in *. intros t Ht. apply IH; auto. }
    destruct (sort_each_spec rv n ts Hch l h Hl) as (h' & l' & Hrun & Hpre & Hrep).
    exists h', (VList l'). unfold sort_value. simpl. rewrite Hrun. simpl.
    split; [done|]. split; [done|]. constructor.
    clear -Hrep Hl. revert l' Hrep.
    induction Hl as [|x t l ts Hx Hl IHl]; intros l' Hrep;
      inversion Hrep; subst; simpl; constructor; [|by apply IHl].
    destruct t; simpl in *; try done. inversion Hx.
  - (* a plain value *)
    inversion Hr as [| |e' w' Hpl Hnl]; subst.
    exists h, w. split.
    + destruct e.
      * unfold sort_value. rewrite plain_not_dot by done.
        specialize (Hnl eq_refl). by destruct w.
      * unfold sort_item. by rewrite plain_not_dot.
    + split; [done|]. simpl. by constructor.
Qed.

Lemma sort_spec (rv : bool) (h : heap) (x : addr) (its : list (string * tree))
  (fuel : nat) :
  accessor h x its -> depth (TDot its) <= fuel ->
  exists h' r,
    sort fuel h x None rv = Ok (h', r) /\
    h `prefix_of` h' /\
    repr (length h) h' true (VRef r) (tsort rv (TDot its)).
Proof.
  intros Hx Hfuel.
  destruct (sort_value_spec rv _ _ Hfuel h (VRef x) true Hx)
    as (h' & v' & Hrun & Hpre & Hrep).
  unfold sort_value in Hrun. rewrite (repr_is_dot _ _ _ _ _ Hx) in Hrun.
  inversion Hx as [? ? o ? _ Hlook Hmi _ _ _| |]; subst.
  simpl in Hrun.
  rewrite (bound_method_intact _ _ _ "sort" Hlook Hmi eq_refl) in Hrun.
  simpl in Hrun. unfold rec_sort in Hrun.
  destruct (sort fuel h x None rv) as [[h1 r]|err]; simpl in Hrun; [|done].
  injection Hrun as -> <-. by exists h', r.
Qed.

(** On an accessor the calls through the instance reach the methods of
    the class. *)
Lemma accessor_calls (lo : addr) (h : heap) (e : bool) (x : addr)
  (its : list (string * tree)) :
  repr lo h e (VRef x) (TDot its) ->
  (forall fuel key rv, call_sort fuel h x key rv = sort fuel h x key rv) /\
  call_keys h x = keys h x /\ call_items h x = items h x /\
  call_values h x = values h x /\
  (forall k d, call_get h x k d = get h x k d).
Proof.
  inversion 1 as [? ? o ? _ Hlook Hmi _ _ _| |]; subst.
  unfold call_sort, call_keys, call_items, call_values, call_get.
  rewrite (bound_method_intact _ _ _ "sort" Hlook Hmi eq_refl),
    (bound_method_intact _ _ _ "keys" Hlook Hmi eq_refl),
    (bound_method_intact _ _ _ "items" Hlook Hmi eq_refl),
    (bound_method_intact _ _ _ "values" Hlook Hmi eq_refl),
    (bound_method_intact _ _ _ "get" Hlook Hmi eq_refl).
  done.
Qed.

Lemma call_sort_spec (rv : bool) (h : heap) (x : addr) (its : list (string * tree))
  (fuel : nat) :
  accessor h x its -> depth (TDot its) <= fuel ->
  exists h' r,
    call_sort fuel h x None rv = Ok (h', r) /\
    h `prefix_of` h' /\
    repr (length h) h' true (VRef r) (tsort rv (TDot its)).
Proof.
  intros Hx Hfuel. destruct (accessor_calls _ _ _ _ _ Hx) as (-> & _).
  by apply sort_spec.
Qed.

(** ** Sorting trees *)

Lemma tsort_is_sort_of (rv : bool) (t : tree) : is_sort_of rv t (tsort rv t).
Proof.
  induction t as [its IH|ts IH|w] using tree_ind'.
  - rewrite tsort_dot.
    apply sort_of_dot with (mid := map (fun kt => (kt.1, tsort rv kt.2)) its).
    + induction IH as [|[k c] its Hc _ IHl]; simpl; constructor; auto.
    + symmetry. apply sorted_perm.
    + apply sorted_key_ordered.
  - simpl. constructor.
    induction IH as [|c ts Hc _ IHl]; simpl; constructor; [|done].
    split; intros Hd; by rewrite Hd.
  - constructor.
Qed.

Lemma tsort_idem (rv : bool) (t : tree) : tsort rv (tsort rv t) = tsort rv t.
Proof.
  induction t as [its IH|ts IH|w] using tree_ind'.
  - rewrite !tsort_dot. f_equal.
    rewrite <- (sorted_map fst fst (fun kt => (kt.1, tsort rv kt.2))) by done.
    rewrite sorted_idem. f_equal.
    induction IH as [|[k c] its Hc _ IHl]; simpl in *; [done|]. by rewrite Hc, IHl.
  - simpl. f_equal.
    induction IH as [|c ts Hc _ IHl]; simpl; [done|]. rewrite IHl. f_equal.
    destruct (is_tdot c) eqn:Hd; [|by rewrite Hd].
    by destruct c.
  - done.
Qed.

(** ** Deep sort *)

(** C5: [x.sort()] without a key function succeeds on every accessor
    (no instance of which has a method hidden by an assigned attribute)
    and returns an accessor whose tree is the deep sort of the source
    tree: at every level the same entries in ascending key order
    (descending with [reverse]), every list in its element order with the
    accessors among the elements sorted and the other elements as they
    were. *)
Theorem C5_sort_orders_every_level (rv : bool) (h : heap) (x : addr)
  (its : list (string * tree)) (fuel : nat) :
  accessor h x its -> depth (TDot its) <= fuel ->
  exists h' r its',
    call_sort fuel h x None rv = Ok (h', r) /\
    accessor h' r its' /\
    key_ordered rv (map fst its') /\
    is_sort_of rv (TDot its) (TDot its').
Proof.
  intros Hx Hfuel.
  destruct (call_sort_spec rv h x its fuel Hx Hfuel) as (h' & r & Hrun & _ & Hrep).
  pose proof (tsort_is_sort_of rv (TDot its)) as Hs.
  rewrite tsort_dot in Hrep, Hs.
  eexists h', r, _. split; [exact Hrun|]. split.
  - eapply repr_weaken; [|exact Hrep]. lia.
  - split; [apply sorted_key_ordered|exact Hs].
Qed.

(** C6: [x.sort()] on an accessor returns an instance that did not
    exist before, built only from instances that did not exist before;
    every object of the heap before the call, the source and its nested
    accessors among them, is the same afterwards, and so is what
    [x.keys()], [x.items()] and [x.values()] return. *)
Theorem C6_sort_leaves_source (rv : bool) (h : heap) (x : addr)
  (its : list (string * tree)) (fuel : nat) :
  accessor h x its -> depth (TDot its) <= fuel ->
  exists h' r,
    call_sort fuel h x None rv = Ok (h', r) /\
    h !! r = None /\
    repr (length h) h' true (VRef r) (tsort rv (TDot its)) /\
    (forall a o, h !! a = Some o -> h' !! a = Some o) /\
    accessor h' x its /\
    call_keys h' x = call_keys h x /\ call_items h' x = call_items h x /\
    call_values h' x = call_values h x.
Proof.
  intros Hx Hfuel.
  destruct (call_sort_spec rv h x its fuel Hx Hfuel) as (h' & r & Hrun & Hpre & Hrep).
  exists h', r. split; [exact Hrun|].
  assert (Hframe : forall a o, h !! a = Some o -> h' !! a = Some o).
  { intros a o Ha. by eapply prefix_lookup_Some. }
  split.
  { inversion Hrep; subst. apply lookup_ge_None_2. lia. }
  split; [exact Hrep|]. split; [exact Hframe|].
  split; [by eapply repr_prefix|].
  inversion Hx; subst.
  unfold call_keys, call_items, call_values, bound_method, keys, items, values, get_dot.
  match goal with H : h !! x = Some _ |- _ => rewrite H, (Hframe _ _ H) end.
  done.
Qed.

(** ** Equality on plain values *)

Lemma same_object_plain (v w : value) : plain v = true -> same_object v w = false.
Proof. by destruct v. Qed.

Lemma plain_dict_inv (d : list (string * value)) :
  plain (VDict d) = true ->
  NoDup (map fst d) /\ Forall (fun kv => plain kv.2 = true) d.
Proof.
  simpl. intros H. apply andb_true_iff in H as [Hnd H].
  split; [by apply bool_decide_eq_true in Hnd|]. clear Hnd.
  induction d as [|[k x] d IH]; constructor.
  - simpl. by apply andb_true_iff in H as [? _].
  - apply IH. by apply andb_true_iff in H as [_ ?].
Qed.

(** On a plain left operand [==] never reaches an instance: it succeeds,
    with an answer that does not depend on how instances compare. *)
Lemma val_eq_plain (v : value) :
  plain v = true ->
  forall w, exists b, forall f, val_eq f v w = Ok b.
Proof.
  induction v as [| | | |l IH|d IH| |] using value_ind'; intros Hp w;
    try discriminate; try (destruct w; eexists; intros f; reflexivity).
  - (* lists *)
    destruct w as [| | | |m| | |]; try (eexists; intros f; reflexivity).
    simpl. destruct (Nat.eqb (length l) (length m)); [|by eexists].
    simpl in Hp. revert m.
    induction IH as [|x l Hx _ IHl]; intros m.
    + exists true. by destruct m.
    + apply andb_true_iff in Hp as [Hpx Hpl].
      destruct m as [|y m]; [by exists true|].
      destruct (Hx Hpx y) as [b1 Hb1]. destruct (IHl Hpl m) as [b2 Hb2].
      exists (if b1 then b2 else false). intros f.
      rewrite (same_object_plain _ _ Hpx), Hb1. simpl.
      destruct b1; [apply Hb2|done].
  - (* dicts *)
    destruct w as [| | | | |e| |]; try (eexists; intros f; reflexivity).
    simpl. destruct (Nat.eqb (length d) (length e)); [|by eexists].
    apply plain_dict_inv in Hp as [_ Hp].
    induction IH as [|[k x] d Hx _ IHd].
    + by exists true.
    + apply Forall_cons in Hp as [Hpx Hpd]. simpl in Hpx, Hx.
      destruct (od_get e k) as [y|]; [|by exists false].
      destruct (Hx Hpx y) as [b1 Hb1]. destruct (IHd Hpd) as [b2 Hb2].
      exists (if b1 then b2 else false). intros f.
      rewrite (same_object_plain _ _ Hpx), Hb1. simpl.
      destruct b1; [apply Hb2|done].
Qed.

Lemma py_eq_plain (n : nat) (h : heap) (v w : value) :
  plain v = true -> py_eq n h v w = Ok (plain_eq v w).
Proof.
  intros Hp. destruct (val_eq_plain v Hp w) as [b Hb].
  unfold py_eq, plain_eq. by rewrite !Hb.
Qed.

Lemma od_get_in (d : list (string * value)) (k : string) (x : value) :
  NoDup (map fst d) -> (k, x) ∈ d -> od_get d k = Some x.
Proof.
  induction d as [|[k' x'] d IH]; simpl; intros Hnd Hin; [by apply elem_of_nil in Hin|].
  apply NoDup_cons in Hnd as [Hk Hnd].
  apply elem_of_cons in Hin as [Heq|Hin].
  - injection Heq as -> ->. by rewrite String.eqb_refl.
  - destruct (String.eqb_spec k' k) as [->|]; [|by apply IH].
    exfalso. apply Hk. change k with (fst (k, x)).
    apply list_elem_of_In, in_map, list_elem_of_In, Hin.
Qed.

Lemma val_eq_refl (v : value) :
  plain v = true -> forall f, val_eq f v v = Ok true.
Proof.
  induction v as [|b|z|s|l IH|d IH| |] using value_ind'; intros Hp f;
    try discriminate; simpl.
  - done.
  - by destruct b.
  - by rewrite Z.eqb_refl.
  - by rewrite String.eqb_refl.
  - rewrite Nat.eqb_refl. simpl in Hp.
    induction IH as [|x l Hx _ IHl]; [done|].
    apply andb_true_iff in Hp as [Hpx Hpl].
    rewrite (same_object_plain _ _ Hpx), (Hx Hpx). simpl. by apply IHl.
  - rewrite Nat.eqb_refl.
    apply plain_dict_inv in Hp as [Hnd Hp].
    assert (Hall : forall kv, kv ∈ d -> od_get d kv.1 = Some kv.2).
    { intros [k x] Hin. by apply od_get_in. }
    revert Hall. generalize d at 2 3 as e. intros e.
    induction IH as [|[k x] d' Hx _ IHd]; intros Hall; [done|].
    apply Forall_cons in Hp as [Hpx Hpd]. simpl in Hpx, Hx.
    apply NoDup_cons in Hnd as [_ Hnd].
    pose proof (Hall (k, x) ltac:(left)) as Hk. simpl in Hk. rewrite Hk.
    rewrite (same_object_plain _ _ Hpx), (Hx Hpx). simpl.
    apply IHd; [done|done|]. intros kv Hin. apply Hall. by right.
Qed.

Lemma plain_eq_refl (v : value) : plain v = true -> plain_eq v v = true.
Proof. intros Hp. unfold plain_eq. by rewrite val_eq_refl. Qed.

(** ** Equality of accessors *)

Lemma spec_equal_refl (t : tree) :
  forall lo h e v, repr lo h e v t -> spec_equal t t = true.
Proof.
  induction t as [its IH|ts IH|w] using tree_ind'; intros lo h e v Hr;
    inversion Hr; subst; simpl.
  - assert (Hall : Forall (fun kt => spec_equal kt.2 kt.2 = true) its).
    { match goal with H : Forall2 _ _ its |- _ =>
        clear -IH H; induction H as [|[k' x] [k c] d its [Hk Hx] _ IHd] end;
        [constructor|].
      apply Forall_cons in IH as [Hc IH]. constructor; simpl in *; eauto. }
    clear -Hall. induction Hall as [|[k c] its Hc _ IHl]; simpl in *; [done|].
    by rewrite String.eqb_refl, Hc.
  - assert (Hall : Forall (fun t => spec_equal t t = true) ts).
    { match goal with H : Forall2 _ _ ts |- _ =>
        clear -IH H; induction H as [|x c d ts Hx _ IHd] end;
        [constructor|].
      apply Forall_cons in IH as [Hc IH]. constructor; eauto. }
    clear -Hall. induction Hall as [|c ts Hc _ IHl]; simpl in *; [done|].
    by rewrite Hc.
  - by apply plain_eq_refl.
Qed.

Lemma spec_equal_dot_keys (a b : list (string * tree)) :
  spec_equal (TDot a) (TDot b) = true -> map fst a = map fst b.
Proof.
  simpl. revert b. induction a as [|[k x] a IH]; intros [|[k' y] b] H; try done.
  apply andb_true_iff in H as [H Hr]. apply andb_true_iff in H as [Hk _].
  apply String.eqb_eq in Hk as ->. simpl. f_equal. by apply IH.
Qed.

Lemma spec_equal_list_length (a b : list tree) :
  spec_equal (TList a) (TList b) = true -> length a = length b.
Proof.
  simpl. revert b. induction a as [|x a IH]; intros [|y b] H; try done.
  apply andb_true_iff in H as [_ Hr]. simpl. f_equal. by apply IH.
Qed.

Section eq_spec.
Variables (n : nat) (h : heap).

Lemma elem_eq_spec (t : tree) (e : bool) (v1 v2 : value) (t2 : tree) :
  eq_ok n h t -> repr 0 h e v1 t -> repr 0 h e v2 t2 ->
  (if same_object v1 v2 then Ok true
   else val_eq (ref_cmp h (DotAccessDict_eq n h)) v1 v2)
  = Ok (spec_equal t t2).
Proof.
  intros Hok H1 H2. destruct (same_object v1 v2) eqn:Hs; [|exact (Hok e v1 v2 t2 H1 H2)].
  destruct v1, v2; try discriminate. apply Nat.eqb_eq in Hs as ->.
  rewrite <- (repr_functional _ _ _ _ _ _ _ H1 H2).
  by erewrite spec_equal_refl.
Qed.

Lemma tuples_eq_spec (its1 : list (string * tree)) :
  Forall (fun kt => eq_ok n h kt.2) its1 ->
  forall d1 d2 its2,
    Forall2 (fun kv kt => kv.1 = kt.1 /\ repr 0 h true kv.2 kt.2) d1 its1 ->
    Forall2 (fun kv kt => kv.1 = kt.1 /\ repr 0 h true kv.2 kt.2) d2 its2 ->
    items_eq (ref_cmp h (DotAccessDict_eq n h)) d1 d2
    = Ok (spec_equal (TDot its1) (TDot its2)).
Proof.
  intros IH d1 d2 its2 H1 H2. unfold items_eq.
  destruct (Nat.eqb_spec (length d1) (length d2)) as [Hlen|Hlen].
  - revert d1 d2 its2 H1 H2 Hlen.
    induction IH as [|[k1 t1] its1 Ht _ IHl]; intros d1 d2 its2 H1 H2 Hlen;
      inversion H1 as [|[k1' v1] ? d1' ? [Hk1 Hv1] H1']; subst;
      inversion H2 as [|[k2' v2] [k2 t2] d2' its2' [Hk2 Hv2] H2']; subst;
      simpl in *; subst; try done.
    destruct (String.eqb k1 k2); [|done]. simpl.
    rewrite (elem_eq_spec _ _ _ _ _ Ht Hv1 Hv2). simpl.
    destruct (spec_equal t1 t2); [|done]. simpl. apply IHl; auto.
  - destruct (spec_equal (TDot its1) (TDot its2)) eqn:Heq; [|done].
    apply spec_equal_dot_keys in Heq. exfalso. apply Hlen.
    rewrite (Forall2_length _ _ _ H1), (Forall2_length _ _ _ H2).
    rewrite <- (length_map fst its1), Heq. by rewrite length_map.
Qed.

Lemma list_eq_spec (ts1 : list tree) :
  Forall (eq_ok n h) ts1 ->
  forall l1 l2 ts2,
    Forall2 (repr 0 h false) l1 ts1 ->
    Forall2 (repr 0 h false) l2 ts2 ->
    py_eq n h (VList l1) (VList l2) = Ok (spec_equal (TList ts1) (TList ts2)).
Proof.
  intros IH l1 l2 ts2 H1 H2. unfold py_eq. simpl val_eq.
  destruct (Nat.eqb_spec (length l1) (length l2)) as [Hlen|Hlen].
  - revert l1 l2 ts2 H1 H2 Hlen.
    induction IH as [|t1 ts1 Ht _ IHl]; intros l1 l2 ts2 H1 H2 Hlen;
      inversion H1 as [|v1 ? l1' ? Hv1 H1']; subst;
      inversion H2 as [|v2 t2 l2' ts2' Hv2 H2']; subst;
      simpl in *; try done.
    rewrite (elem_eq_spec _ _ _ _ _ Ht Hv1 Hv2). simpl.
    destruct (spec_equal t1 t2); [|done]. simpl. apply IHl; auto.
  - destruct (spec_equal (TList ts1) (TList ts2)) eqn:Heq; [|done].
    apply spec_equal_list_length in Heq. exfalso. apply Hlen.
    by rewrite (Forall2_length _ _ _ H1), (Forall2_length _ _ _ H2).
Qed.
End eq_spec.

Lemma py_eq_spec (h : heap) (t : tree) :
  forall n, depth t <= n -> eq_ok n h t.
Proof.
  induction t as [its IH|ts IH|w] using tree_ind'; intros n Hn e v1 v2 t2 H1 H2.
  - (* an accessor on the left *)
    inversion H1 as [e1 a o1 its1 _ Hl1 Hm1 _ _ He1| |]; subst.
    destruct n as [|n]; [simpl in Hn; lia|]. apply depth_dot in Hn.
    inversion H2 as [e2 b o2 its2 _ Hl2 Hm2 _ _ He2|l2 ts2 Hl2|e2 w2 Hp2 Hn2]; subst.
    + unfold py_eq. simpl val_eq. unfold ref_cmp. rewrite Hl1, Hl2.
      simpl. rewrite Hl2. simpl. unfold call_items.
      rewrite (bound_method_intact _ _ _ "items" Hl1 Hm1 eq_refl),
        (bound_method_intact _ _ _ "items" Hl2 Hm2 eq_refl).
      unfold items, get_dot. rewrite Hl1, Hl2. simpl.
      apply tuples_eq_spec; [|done|done].
      rewrite List.Forall_forall in *. intros kt Hkt. apply IH; auto.
    + done.
    + by destruct v2.
  - (* a list on the left *)
    inversion H1 as [|l1 ts1 Hl1|]; subst. apply depth_list in Hn.
    inversion H2 as [e2 b o2 its2 _ Hl2 _ _ _ He2|l2 ts2 Hl2|e2 w2 Hp2 Hn2]; subst.
    + done.
    + apply list_eq_spec; [|done|done].
      rewrite List.Forall_forall in *. intros t Ht. apply IH; auto.
    + specialize (Hn2 eq_refl). by destruct v2.
  - (* a plain value on the left *)
    inversion H1 as [| |e1 w1 Hp1 Hn1]; subst.
    rewrite py_eq_plain by done.
    inversion H2 as [e2 b o2 its2 _ Hl2 _ _ _ He2|l2 ts2 Hl2|e2 w2 Hp2 Hn2]; subst; simpl.
    + by destruct w.
    + specialize (Hn1 eq_refl). by destruct w.
    + done.
Qed.

(** An accessor against something that is no accessor. *)
Lemma DotAccessDict_eq_other (n : nat) (h : heap) (x : addr) (w : value) :
  is_dot h w = false -> DotAccessDict_eq (S n) h x w = Ok false.
Proof. intros Hw. simpl. by rewrite Hw. Qed.

Lemma entries_keys (lo : addr) (h : heap) (d : list (string * value))
  (its : list (string * tree)) :
  Forall2 (fun kv kt => kv.1 = kt.1 /\ repr lo h true kv.2 kt.2) d its ->
  map fst d = map fst its.
Proof. induction 1 as [|? ? ? ? [Hk _]]; simpl; congruence. Qed.

Lemma accessor_keys (h : heap) (x : addr) (its : list (string * tree)) :
  accessor h x its -> keys h x = Ok (map fst its).
Proof.
  inversion 1; subst. unfold keys, get_dot.
  match goal with H : h !! x = Some _ |- _ => rewrite H end. simpl.
  f_equal. by eapply entries_keys.
Qed.

(** C4: [x == y] between two accessors (no instance of which has a
    method hidden by an assigned attribute) is the comparison of their
    ordered sequences of (key, value) pairs, element by element and
    recursively through nested accessors; equal accessors have the same
    keys in the same order, so the same pairs in another order are not
    equal; against a value that is no accessor [__eq__] answers false
    without raising. *)
Theorem C4_equality_is_ordered (h : heap) (x y : addr)
  (itsx itsy : list (string * tree)) (fuel : nat) :
  accessor h x itsx -> accessor h y itsy -> depth (TDot itsx) <= fuel ->
  py_eq fuel h (VRef x) (VRef y) = Ok (spec_equal (TDot itsx) (TDot itsy)) /\
  DotAccessDict_eq fuel h x (VRef y) = Ok (spec_equal (TDot itsx) (TDot itsy)) /\
  (keys h x <> keys h y -> py_eq fuel h (VRef x) (VRef y) = Ok false) /\
  (forall w, is_dot h w = false -> DotAccessDict_eq fuel h x w = Ok false).
Proof.
  intros Hx Hy Hfuel.
  assert (Heq : py_eq fuel h (VRef x) (VRef y)
                = Ok (spec_equal (TDot itsx) (TDot itsy))).
  { exact (py_eq_spec h _ fuel Hfuel true _ _ _ Hx Hy). }
  split; [exact Heq|]. split; [|split].
  - rewrite <- Heq. unfold py_eq. simpl val_eq. unfold ref_cmp.
    inversion Hx; subst. inversion Hy; subst.
    repeat match goal with H : h !! _ = Some _ |- _ => rewrite H; clear H end.
    done.
  - intros Hk. rewrite Heq. f_equal.
    destruct (spec_equal (TDot itsx) (TDot itsy)) eqn:Hs; [|done].
    exfalso. apply Hk. rewrite (accessor_keys _ _ _ Hx), (accessor_keys _ _ _ Hy).
    f_equal. by apply spec_equal_dot_keys.
  - intros w Hw. destruct fuel as [|n]; [simpl in Hfuel; lia|].
    by apply DotAccessDict_eq_other.
Qed.

(** ** Sorting twice *)

Lemma depth_dot_intro (its : list (string * tree)) (n : nat) :
  Forall (fun kt => depth kt.2 <= n) its -> depth (TDot its) <= S n.
Proof.
  intros H. simpl. apply le_n_S.
  induction H as [|[k c] its Hc _ IH]; simpl in *; lia.
Qed.

Lemma depth_list_intro (ts : list tree) (n : nat) :
  Forall (fun t => depth t <= n) ts -> depth (TList ts) <= n.
Proof. intros H. simpl. induction H as [|c ts Hc _ IH]; simpl in *; lia. Qed.

Lemma depth_tsort (rv : bool) (t : tree) :
  forall n, depth t <= n -> depth (tsort rv t) <= n.
Proof.
  induction t as [its IH|ts IH|w] using tree_ind'; intros n Hn.
  - destruct n as [|n]; [simpl in Hn; lia|]. apply depth_dot in Hn.
    rewrite tsort_dot. apply depth_dot_intro.
    eapply Permutation_Forall; [symmetry; apply sorted_perm|].
    apply List.Forall_map. simpl.
    rewrite List.Forall_forall in *. intros kt Hkt. apply IH; auto.
  - apply depth_list in Hn. simpl tsort. apply depth_list_intro.
    apply List.Forall_map.
    rewrite List.Forall_forall in *. intros t Ht.
    destruct (is_tdot t); [apply IH|]; auto.
  - done.
Qed.

(** C7: on an accessor [x], [x.sort().sort()] succeeds and gives an
    accessor that [==] finds equal to [x.sort()]. *)
Theorem C7_sort_idempotent (rv : bool) (h : heap) (x : addr)
  (its : list (string * tree)) (fuel : nat) :
  accessor h x its -> depth (TDot its) <= fuel ->
  exists h1 s1 h2 s2,
    call_sort fuel h x None rv = Ok (h1, s1) /\
    call_sort fuel h1 s1 None rv = Ok (h2, s2) /\
    py_eq fuel h2 (VRef s2) (VRef s1) = Ok true.
Proof.
  intros Hx Hfuel.
  destruct (call_sort_spec rv h x its fuel Hx Hfuel) as (h1 & s1 & Hrun1 & _ & Hrep1).
  apply (repr_weaken _ 0) in Hrep1; [|lia].
  pose proof (depth_tsort rv _ _ Hfuel) as Hfuel1.
  rewrite tsort_dot in Hrep1, Hfuel1.
  destruct (call_sort_spec rv h1 s1 _ fuel Hrep1 Hfuel1) as (h2 & s2 & Hrun2 & Hpre2 & Hrep2).
  apply (repr_weaken _ 0) in Hrep2; [|lia].
  rewrite <- tsort_dot in Hrep1, Hrep2, Hfuel1. rewrite tsort_idem in Hrep2.
  exists h1, s1, h2, s2. split; [done|]. split; [done|].
  rewrite (py_eq_spec h2 _ fuel Hfuel1 true _ _ _ Hrep2 (repr_prefix _ _ _ _ _ _ Hpre2 Hrep1)).
  f_equal. by eapply spec_equal_refl.
Qed.

(** ** What the constructor builds *)

#[local] Arguments DotAccessDict : simpl never.

Lemma wrap_items_unfold (l : list value) (h : heap) :
  wrap_items l h =
  (fix wrap (l : list value) (h : heap) : result (heap * list value) :=
     match l with
     | [] => Ok (h, [])
     | item :: l' =>
         let* (h1, e) :=
           match item with
           | VDict _ => let* (h1, c) := DotAccessDict item h in Ok (h1, VRef c)
           | _ => Ok (h, item)
           end in
         let* (h2, es) := wrap l' h1 in
         Ok (h2, e :: es)
     end) l h.
Proof.
  revert h. induction l as [|item l IH]; intros h; [done|].
  simpl. unfold wrap_item at 1.
  destruct item; simpl; try (rewrite IH; reflexivity).
  destruct (DotAccessDict _ h) as [[h1 c]|]; simpl; [|done]. by rewrite IH.
Qed.

Lemma update_from_unfold (self : addr) (d : list (string * value)) (h : heap) :
  update_from self d h =
  (fix update (d : list (string * value)) (h : heap) : result heap :=
     match d with
     | [] => Ok h
     | (key, v) :: d' =>
         let* (h1, stored) :=
           match v with
           | VDict _ => let* (h1, c) := DotAccessDict v h in Ok (h1, VRef c)
           | VList l =>
               let* (h1, l') :=
                 (fix wrap (l : list value) (h : heap)
                    : result (heap * list value) :=
                    match l with
                    | [] => Ok (h, [])
                    | item :: l' =>
                        let* (h1, e) :=
                          match item with
                          | VDict _ =>
                              let* (h1, c) := DotAccessDict item h in
                              Ok (h1, VRef c)
                          | _ => Ok (h, item)
                          end in
                        let* (h2, es) := wrap l' h1 in
                        Ok (h2, e :: es)
                    end) l h in
               Ok (h1, VList l')
           | _ => Ok (h, v)
           end in
         let* h2 := store_entry h1 self key stored in
         update d' h2
     end) d h.
Proof.
  revert h. induction d as [|[key v] d IH]; intros h; [done|].
  simpl. unfold wrap_value at 1.
  destruct v as [| | | |l|d'| |]; simpl;
    try (destruct (store_entry _ _ _ _); simpl; [apply IH|done]).
  - pose proof (wrap_items_unfold l h) as Hw. simpl in Hw. rewrite <- Hw.
    destruct (wrap_items _ h) as [[h1 l']|]; simpl; [|done].
    destruct (store_entry _ _ _ _); simpl; [apply IH|done].
  - destruct (DotAccessDict _ h) as [[h1 c]|]; simpl; [|done].
    destruct (store_entry _ _ _ _); simpl; [apply IH|done].
Qed.

Lemma DotAccessDict_dict (d : list (string * value)) (h : heap) :
  d <> [] ->
  DotAccessDict (VDict d) h =
  let* h' := update_from (length h) d (h ++ [ODot empty_dot]) in
  Ok (h', length h).
Proof.
  intros Hd. rewrite update_from_unfold.
  destruct d; [done|]. reflexivity.
Qed.

Lemma tree_of_dict (d : list (string * value)) :
  tree_of (VDict d) = TDot (map (fun kv => (kv.1, entry_tree kv.2)) d).
Proof.
  simpl. f_equal. induction d as [|[k x] d IH]; simpl; [done|].
  rewrite IH. reflexivity.
Qed.

Lemma wf_source_dict_inv (d : list (string * value)) :
  wf_source (VDict d) = true ->
  NoDup (map fst d) /\
  Forall (fun kv => dunder kv.1 = false /\ entry_wf kv.2) d.
Proof.
  intros H. apply andb_true_iff in H as [Hp H].
  apply plain_dict_inv in Hp as [Hnd Hp]. split; [done|].
  induction d as [|[k x] d IH]; [constructor|].
  apply Forall_cons in Hp as [Hpx Hp]. apply NoDup_cons in Hnd as [_ Hnd].
  apply andb_true_iff in H as [H Hd]. apply andb_true_iff in H as [Hk Hx].
  constructor; [|by apply IH]. simpl in *.
  split; [by destruct (dunder k)|]. split; [done|].
  destruct x as [| | | |l| | |]; try done.
  simpl in Hpx. clear -Hpx Hx.
  induction l as [|e l IHl]; [constructor|].
  apply andb_true_iff in Hpx as [Hpe Hpl]. apply andb_true_iff in Hx as [He Hl].
  constructor; [|by apply IHl]. split; [done|]. by destruct e.
Qed.

Lemma wrap_items_spec (l : list value) :
  Forall built l ->
  Forall (fun e => plain e = true /\ (is_dict e = true -> wf_source e = true)) l ->
  forall h, exists h1 l',
    wrap_items l h = Ok (h1, l') /\
    h `prefix_of` h1 /\
    Forall2 (repr (length h) h1 false) l' (map elem_tree l).
Proof.
  induction 1 as [|x l Hx _ IH]; intros Hwf h.
  - exists h, []. repeat split; [done|constructor].
  - apply Forall_cons in Hwf as [[Hpx Hwx] Hwf].
    assert (Hitem : exists h1 v', wrap_item h x = Ok (h1, v') /\
                      h `prefix_of` h1 /\ repr (length h) h1 false v' (elem_tree x)).
    { destruct x as [| | | | |d| |];
        try (eexists h, _; split; [reflexivity|]; split; [done|];
             by constructor).
      destruct (Hx (Hwx eq_refl) h false) as (h1 & Hrun & Hpre & Hrep).
      exists h1, (VRef (length h)). unfold wrap_item. by rewrite Hrun. }
    destruct Hitem as (h1 & v' & Hrun & Hpre & Hrep).
    destruct (IH Hwf h1) as (h2 & l' & Hrun2 & Hpre2 & Hrep2).
    exists h2, (v' :: l'). simpl. rewrite Hrun. simpl. rewrite Hrun2. simpl.
    split; [done|]. split; [by etrans|].
    constructor; [by eapply repr_prefix|].
    eapply Forall2_impl; [exact Hrep2|]. intros ? ?.
    apply repr_weaken. by apply prefix_length.
Qed.

Lemma update_from_spec (self : addr) (d : list (string * value)) :
  Forall (fun kv => entry_built kv.2) d ->
  forall hc od dts,
    hc !! self = Some (ODot od) ->
    Forall2 (fun kv kt => kv.1 = kt.1 /\ repr (S self) hc true kv.2 kt.2)
            (_data od) dts ->
    NoDup (map fst (_data od) ++ map fst d) ->
    Forall (fun k => ns_reserved k = false) (map fst d) ->
    exists h' od',
      update_from self d hc = Ok h' /\
      (forall h0, h0 `prefix_of` hc -> length h0 <= self -> h0 `prefix_of` h') /\
      h' !! self = Some (ODot od') /\
      attrs od' = attrs od /\
      map fst (_data od') = map fst (_data od) ++ map fst d /\
      Forall2 (fun kv kt => kv.1 = kt.1 /\ repr (S self) h' true kv.2 kt.2)
              (_data od') (dts ++ map (fun kv => (kv.1, entry_tree kv.2)) d).
Proof.
  induction 1 as [|[k x] d Hx _ IH]; intros hc od dts Hlook Hdone Hnd Hdu.
  - exists hc, od. simpl. rewrite !app_nil_r. done.
  - simpl in *.
    assert (Hlt : self < length hc) by (eapply lookup_lt_Some; eauto).
    destruct (Hx hc) as (h1 & v' & Hrun & Hpre1 & Hrep).
    rewrite Hrun. simpl.
    assert (Hlook1 : h1 !! self = Some (ODot od))
      by (eapply prefix_lookup_Some; eauto).
    apply Forall_cons in Hdu as [Hdk Hdu].
    rewrite (store_entry_spec _ _ _ _ _ Hlook1 Hdk). simpl.
    assert (Hfresh : k ∉ map fst (_data od)).
    { apply NoDup_app in Hnd as (_ & Hnd & _). intros Hin.
      apply (Hnd k Hin). left. }
    rewrite (od_set_fresh _ _ _ Hfresh).
    assert (Hlt1 : self < length h1) by (eapply lookup_lt_Some; eauto).
    edestruct (IH (<[self := ODot (MkDot (_data od ++ [(k, v')])
                                  (<[k := v']> (_namespace od)) (attrs od))]> h1)
                 (MkDot (_data od ++ [(k, v')]) (<[k := v']> (_namespace od)) (attrs od))
                 (dts ++ [(k, entry_tree x)]))
      as (h' & od' & Hrun' & Hpre' & Hlook' & Hattrs' & Hkeys' & Hrep'); simpl.
    + by apply list_lookup_insert_eq.
    + apply Forall2_app.
      * eapply Forall2_impl; [exact Hdone|]. intros ? ? [? ?]. split; [done|].
        apply repr_insert_below; [lia|]. by eapply repr_prefix.
      * repeat constructor; simpl.
        apply repr_insert_below; [lia|].
        eapply repr_weaken; [|exact Hrep]. lia.
    + rewrite map_app. simpl. by rewrite <- app_assoc.
    + done.
    + exists h', od'. split; [done|]. split; [|split; [done|split; [done|split]]].
      * intros h0 Hh0 Hlen. apply Hpre'; [|done].
        apply prefix_insert; [by etrans|done].
      * simpl in Hkeys'. rewrite Hkeys', map_app. simpl. by rewrite <- app_assoc.
      * by rewrite <- app_assoc in Hrep'.
Qed.

Lemma repr_empty (h : heap) (e : bool) :
  repr (length h) (h ++ [ODot empty_dot]) e (VRef (length h)) (TDot []).
Proof.
  eapply repr_dot with (o := empty_dot); simpl;
    [lia | apply lookup_new | by apply methods_intact_no_attrs
    | constructor | constructor | constructor].
Qed.

Lemma built_non_dict (v : value) : is_dict v = false -> built v.
Proof.
  intros Hd _ h e. exists (h ++ [ODot empty_dot]).
  split; [by apply DotAccessDict_non_dict|].
  split; [by apply prefix_app_r|].
  destruct v; try discriminate; apply repr_empty.
Qed.

Lemma entry_built_intro (x : value) :
  built x -> (forall l, x = VList l -> Forall built l) -> entry_wf x ->
  entry_built x.
Proof.
  intros Hb Hl [Hp Hwf] h.
  destruct x as [| | | |l|d| |]; try discriminate;
    try (eexists h, _; split; [reflexivity|]; split; [done|]; by constructor).
  - destruct (wrap_items_spec l (Hl l eq_refl) Hwf h) as (h1 & l' & Hrun & Hpre & Hrep).
    exists h1, (VList l'). simpl. rewrite Hrun. simpl.
    split; [done|]. split; [done|]. by constructor.
  - destruct (Hb Hwf h true) as (h1 & Hrun & Hpre & Hrep).
    exists h1, (VRef (length h)). simpl. by rewrite Hrun.
Qed.

Lemma build_all (v : value) :
  built v /\ (forall l, v = VList l -> Forall built l).
Proof.
  induction v as [| | | |l IH|d IH| |] using value_ind';
    try (split; [by apply built_non_dict|discriminate]).
  - split; [by apply built_non_dict|].
    intros l' [= <-]. eapply Forall_impl; [exact IH|]. by intros ? [? _].
  - split; [|discriminate].
    intros Hwf h e. destruct d as [|kv d'] eqn:Hd.
    { exists (h ++ [ODot empty_dot]). split; [done|].
      split; [by apply prefix_app_r|apply repr_empty]. }
    rewrite <- Hd in *. assert (Hne : d <> []) by (by rewrite Hd). clear Hd.
    apply wf_source_dict_inv in Hwf as [Hnd Hwf].
    assert (Hent : Forall (fun kv => entry_built kv.2) d).
    { rewrite List.Forall_forall in *. intros kv' Hin.
      destruct (IH kv' Hin) as [Hb Hl]. destruct (Hwf kv' Hin) as [_ Hw].
      by apply entry_built_intro. }
    destruct (update_from_spec (length h) d Hent (h ++ [ODot empty_dot]) empty_dot [])
      as (h' & od' & Hrun & Hpre & Hlook & Hattrs & Hkeys & Hrep).
    { apply lookup_new. }
    { constructor. }
    { done. }
    { apply List.Forall_map. eapply Forall_impl; [exact Hwf|].
      intros ? [? _]. by apply dunder_not_reserved. }
    simpl in Hkeys, Hrep.
    exists h'. rewrite tree_of_dict, (DotAccessDict_dict _ _ Hne), Hrun.
    split; [done|]. split; [apply Hpre; [by apply prefix_app_r|done]|].
    eapply repr_dot; [done|exact Hlook| | | |].
    + by apply methods_intact_no_attrs.
    + by rewrite Hkeys.
    + rewrite Hkeys. apply List.Forall_map.
      eapply Forall_impl; [exact Hwf|]. intros ? [? _].
      by apply dunder_not_reserved.
    + eapply Forall2_impl; [exact Hrep|]. intros ? ? [? ?]. split; [done|].
      eapply repr_weaken; [|eassumption]. lia.
Qed.

Lemma DotAccessDict_spec (data : value) (h : heap) :
  wf_source data = true ->
  exists h',
    DotAccessDict data h = Ok (h', length h) /\
    h `prefix_of` h' /\
    repr (length h) h' true (VRef (length h)) (tree_of data).
Proof. intros Hwf. by apply (proj1 (build_all data)). Qed.

(** ** Key order after construction *)

(** C2, as the claim states it, fails for the Box variant:
    [create_ordered_box] hands [Box] the entries sorted by key, so the
    source order [b, a] is not kept. *)
Lemma C2_box_reorders_keys :
  exists b,
    create_ordered_box [] (VDict [("b", VInt 2); ("a", VInt 1)]) = Ok b /\
    map fst (box_arg b) <> ["b"; "a"].
Proof. eexists. split; [reflexivity|]. simpl. discriminate. Qed.

(** C2 (amended): the DotAccessDict constructor stores the keys of a
    source mapping in the mapping's iteration order, at every nesting
    level: the accessor it returns stands for [tree_of] of the source,
    whose entries are those of the source in order.
    [create_ordered_box] hands [Box] the top-level entries of the source
    sorted by key, the values as they are. *)
Theorem C2_construction_order (d : list (string * value)) (h : heap) :
  wf_source (VDict d) = true ->
  (exists h' x,
     DotAccessDict (VDict d) h = Ok (h', x) /\
     h !! x = None /\
     keys h' x = Ok (map fst d) /\
     accessor h' x (map (fun kv => (kv.1, entry_tree kv.2)) d)) /\
  (exists b,
     create_ordered_box h (VDict d) = Ok b /\
     Permutation (box_arg b) d /\
     key_ordered false (map fst (box_arg b))).
Proof.
  intros Hwf. split.
  - destruct (DotAccessDict_spec _ h Hwf) as (h' & Hrun & Hpre & Hrep).
    rewrite tree_of_dict in Hrep. apply (repr_weaken _ 0) in Hrep; [|lia].
    exists h', (length h). split; [done|].
    split; [apply lookup_ge_None_2; lia|].
    split; [|done].
    rewrite (accessor_keys _ _ _ Hrep). f_equal.
    clear. induction d as [|[k x] d IH]; simpl; congruence.
  - exists (Box (sorted fst false d) true). split; [reflexivity|].
    split; [apply sorted_perm|apply sorted_key_ordered].
Qed.

Lemma C2_construction_order_witness :
  (exists h' x,
     DotAccessDict sample_source [] = Ok (h', x) /\
     ([] : heap) !! x = None /\
     keys h' x = Ok ["c"; "Test1"] /\
     accessor h' x
       [("c", TDot [("e", TVal VNone)]);
        ("Test1", TDot [("z", TVal (VInt 42));
                        ("b", TList [TDot [("y", TVal (VInt 1)); ("x", TVal (VInt 2))];
                                     TVal (VInt 7)])])]) /\
  (exists b,
     create_ordered_box [] sample_source = Ok b /\
     Permutation (box_arg b)
       [("c", VDict [("e", VNone)]);
        ("Test1", VDict [("z", VInt 42);
                         ("b", VList [VDict [("y", VInt 1); ("x", VInt 2)]; VInt 7])])] /\
     key_ordered false (map fst (box_arg b))).
Proof.
  apply (C2_construction_order
           [("c", VDict [("e", VNone)]);
            ("Test1", VDict [("z", VInt 42);
                             ("b", VList [VDict [("y", VInt 1); ("x", VInt 2)]; VInt 7])])]
           []).
  vm_compute. reflexivity.
Defined.

(** ** What equality and sorting read *)

Section stored_facts.
Variables h h' : heap.
Hypothesis Hst : stored h = stored h'.

Lemma stored_length : length h = length h'.
Proof.
  unfold stored in Hst. apply (f_equal length) in Hst.
  by rewrite !length_fmap in Hst.
Qed.

Lemma stored_lookup (a : addr) :
  match h !! a, h' !! a with
  | Some (ODot o), Some (ODot o') =>
      _data o = _data o' /\
      attrs o !! "items" = attrs o' !! "items" /\
      attrs o !! "sort" = attrs o' !! "sort"
  | Some (OSafeNone _), Some (OSafeNone _) => True
  | None, None => True
  | _, _ => False
  end.
Proof.
  pose proof (f_equal (fun l => l !! a) Hst) as H. simpl in H.
  unfold stored in H. rewrite !list_lookup_fmap in H.
  destruct (h !! a) as [[o|s]|], (h' !! a) as [[o'|s']|]; simpl in H;
    try discriminate; try done. by injection H.
Qed.

Lemma stored_items (a : addr) : items h a = items h' a.
Proof.
  unfold items, get_dot. pose proof (stored_lookup a) as H.
  destruct (h !! a) as [[o|s]|], (h' !! a) as [[o'|s']|]; try done.
  simpl. destruct H as [H _]. by rewrite H.
Qed.

Lemma stored_call_items (a : addr) : call_items h a = call_items h' a.
Proof.
  unfold call_items, bound_method. rewrite stored_items.
  pose proof (stored_lookup a) as H.
  destruct (h !! a) as [[o|s]|], (h' !! a) as [[o'|s']|]; try done.
  destruct H as (_ & H & _). by rewrite H.
Qed.

Lemma stored_bound_sort (a : addr) :
  bound_method h a "sort" = bound_method h' a "sort".
Proof.
  unfold bound_method. pose proof (stored_lookup a) as H.
  destruct (h !! a) as [[o|s]|], (h' !! a) as [[o'|s']|]; try done.
  destruct H as (_ & _ & H). by rewrite H.
Qed.

Lemma stored_is_dot (v : value) : is_dot h v = is_dot h' v.
Proof.
  destruct v as [| | | | | |a|]; try done. simpl.
  pose proof (stored_lookup a) as H.
  by destruct (h !! a) as [[o|s]|], (h' !! a) as [[o'|s']|].
Qed.

Lemma stored_ref_cmp (f g : addr -> value -> result bool) (a b : addr) :
  (forall x w, f x w = g x w) -> ref_cmp h f a b = ref_cmp h' g a b.
Proof.
  intros Hfg. unfold ref_cmp.
  pose proof (stored_lookup a) as Ha. pose proof (stored_lookup b) as Hb.
  destruct (h !! a) as [[oa|sa]|], (h' !! a) as [[oa'|sa']|]; try done;
    destruct (h !! b) as [[ob|sb]|], (h' !! b) as [[ob'|sb']|]; try done;
    apply Hfg.
Qed.

Lemma stored_store_entry (res : addr) (k : string) (v : value) :
  view_heap (store_entry h res k v) = view_heap (store_entry h' res k v).
Proof.
  unfold store_entry, get_dot, ns_setattr.
  pose proof (stored_lookup res) as H.
  destruct (h !! res) as [[o|s]|], (h' !! res) as [[o'|s']|]; try done.
  simpl. destruct (String.eqb k "__class__"); [done|].
  destruct (String.eqb k "__dict__"); [done|]. simpl. f_equal.
  unfold stored. rewrite !list_fmap_insert. simpl.
  destruct H as (-> & -> & ->). f_equal. exact Hst.
Qed.

End stored_facts.

Lemma val_eq_ext (f g : addr -> addr -> result bool) :
  (forall a b, f a b = g a b) ->
  forall v w, val_eq f v w = val_eq g v w.
Proof.
  intros Hfg. induction v as [| | | |l IH|d IH| |] using value_ind';
    intros w; destruct w as [| | | |m|e| |]; simpl; try done.
  - destruct (Nat.eqb (length l) (length m)); [|done].
    revert m. induction IH as [|x l Hx _ IHl]; intros [|y m]; try done.
    rewrite Hx. destruct (same_object x y); simpl; [apply IHl|].
    destruct (val_eq g x y) as [[|]|]; simpl; auto.
  - destruct (Nat.eqb (length d) (length e)); [|done].
    induction IH as [|[k x] d Hx _ IHd]; [done|].
    destruct (od_get e k) as [y|]; [|done]. simpl in Hx.
    rewrite Hx. destruct (same_object x y); simpl; [apply IHd|].
    destruct (val_eq g x y) as [[|]|]; simpl; auto.
Qed.

Lemma items_eq_ext (f g : addr -> addr -> result bool) :
  (forall a b, f a b = g a b) ->
  forall l m, items_eq f l m = items_eq g l m.
Proof.
  intros Hfg l m. unfold items_eq.
  destruct (Nat.eqb (length l) (length m)); [|done].
  revert m. induction l as [|[k1 v1] l IH]; intros [|[k2 v2] m]; simpl; try done.
  destruct (String.eqb k1 k2); [|done].
  rewrite (val_eq_ext f g Hfg). destruct (same_object v1 v2); simpl; [apply IH|].
  destruct (val_eq g v1 v2) as [[|]|]; simpl; auto.
Qed.

Lemma DotAccessDict_eq_stored (h h' : heap) :
  stored h = stored h' ->
  forall fuel x w, DotAccessDict_eq fuel h x w = DotAccessDict_eq fuel h' x w.
Proof.
  intros Hst. induction fuel as [|n IH]; intros x w; [done|].
  simpl. rewrite (stored_is_dot h h' Hst).
  destruct (is_dot h' w); [|done]. simpl.
  destruct w as [| | | | | |b|]; try done.
  rewrite !(stored_call_items h h' Hst).
  destruct (call_items h' x) as [xs|]; [|done]. simpl.
  destruct (call_items h' b) as [ys|]; [|done]. simpl.
  apply items_eq_ext. intros a c. by apply stored_ref_cmp.
Qed.

Lemma py_eq_stored (h h' : heap) (fuel : nat) (v w : value) :
  stored h = stored h' -> py_eq fuel h v w = py_eq fuel h' v w.
Proof.
  intros Hst. unfold py_eq. apply val_eq_ext. intros a b.
  apply stored_ref_cmp; [done|]. intros x u. by apply DotAccessDict_eq_stored.
Qed.

(** [sort] on two heaps with the same stored part. *)
Section sort_view.
Variables rec rec' : heap -> addr -> result (heap * addr).
Hypothesis Hrec : forall h h' c,
  stored h = stored h' -> view (rec h c) = view (rec' h' c).

Lemma sort_instance_view (h h' : heap) (v : value) :
  stored h = stored h' ->
  view (sort_instance rec h v) = view (sort_instance rec' h' v).
Proof.
  intros Hst. destruct v as [| | | | | |c|]; simpl; try by rewrite Hst.
  rewrite (stored_bound_sort h h' Hst).
  destruct (bound_method h' c "sort") as [[]|]; [|done]. simpl.
  specialize (Hrec h h' c Hst).
  destruct (rec h c) as [[h1 r]|], (rec' h' c) as [[h1' r']|];
    simpl in *; congruence.
Qed.

Lemma sort_item_view (h h' : heap) (v : value) :
  stored h = stored h' ->
  view (sort_item rec h v) = view (sort_item rec' h' v).
Proof.
  intros Hst. unfold sort_item. rewrite (stored_is_dot h h' Hst).
  destruct (is_dot h' v); [by apply sort_instance_view|].
  simpl. by rewrite Hst.
Qed.

Lemma sort_each_view (l : list value) :
  forall h h', stored h = stored h' ->
  view (sort_each rec l h) = view (sort_each rec' l h').
Proof.
  induction l as [|x l IH]; intros h h' Hst; simpl; [by rewrite Hst|].
  pose proof (sort_item_view h h' x Hst) as Hx.
  destruct (sort_item rec h x) as [[h1 e]|], (sort_item rec' h' x) as [[h1' e']|];
    simpl in *; try congruence.
  injection Hx as Hst1 ->. specialize (IH h1 h1' Hst1).
  destruct (sort_each rec l h1) as [[h2 es]|], (sort_each rec' l h1') as [[h2' es']|];
    simpl in *; congruence.
Qed.

Lemma sort_value_view (h h' : heap) (v : value) :
  stored h = stored h' ->
  view (sort_value rec h v) = view (sort_value rec' h' v).
Proof.
  intros Hst. unfold sort_value. rewrite (stored_is_dot h h' Hst).
  destruct (is_dot h' v); [by apply sort_instance_view|].
  destruct v as [| | | |l| | |]; simpl; try by rewrite Hst.
  pose proof (sort_each_view l h h' Hst) as Hl.
  destruct (sort_each rec l h) as [[h1 es]|], (sort_each rec' l h') as [[h1' es']|];
    simpl in *; congruence.
Qed.

Lemma sort_loop_view (res : addr) (l : list (string * value)) :
  forall h h', stored h = stored h' ->
  view_heap (sort_loop rec res l h) = view_heap (sort_loop rec' res l h').
Proof.
  induction l as [|[k v] l IH]; intros h h' Hst; simpl; [by rewrite Hst|].
  pose proof (sort_value_view h h' v Hst) as Hv.
  destruct (sort_value rec h v) as [[h1 e]|], (sort_value rec' h' v) as [[h1' e']|];
    simpl in *; try congruence.
  injection Hv as Hst1 ->.
  pose proof (stored_store_entry h1 h1' Hst1 res k e') as Hs.
  destruct (store_entry h1 res k e') as [h2|], (store_entry h1' res k e') as [h2'|];
    simpl in *; try congruence.
  injection Hs as Hst2. by apply IH.
Qed.
End sort_view.

Lemma sort_stored (key : option (string * value -> string)) (rv : bool) (fuel : nat) :
  forall h h' x, stored h = stored h' ->
  view (sort fuel h x key rv) = view (sort fuel h' x key rv).
Proof.
  induction fuel as [|n IH]; intros h h' x Hst; [done|].
  simpl. rewrite (stored_items h h' Hst).
  destruct (items h' x) as [xs|]; [|done]. simpl.
  rewrite <- (stored_length h h' Hst).
  assert (Hst0 : stored (h ++ [ODot empty_dot]) = stored (h' ++ [ODot empty_dot])).
  { unfold stored in *. by rewrite !fmap_app, Hst. }
  pose proof (sort_loop_view _ _ (fun a b c => IH a b c) (length h)
                (sorted (item_key key) rv xs) _ _ Hst0) as Hl.
  destruct (sort_loop _ (length h) _ (h ++ _)) as [h1|],
           (sort_loop _ (length h) _ (h' ++ _)) as [h1'|];
    simpl in *; congruence.
Qed.

Lemma call_sort_stored (key : option (string * value -> string)) (rv : bool)
  (fuel : nat) (h h' : heap) (x : addr) :
  stored h = stored h' ->
  view (call_sort fuel h x key rv) = view (call_sort fuel h' x key rv).
Proof.
  intros Hst. unfold call_sort. rewrite (stored_bound_sort h h' Hst).
  destruct (bound_method h' x "sort") as [[]|]; [|done]. simpl.
  by apply sort_stored.
Qed.

Lemma is_class_attr_ne (p q : string) :
  is_class_attr p = false -> is_class_attr q = true -> p <> q.
Proof. intros Hp Hq ->. congruence. Qed.

Lemma setattr_dot (h : heap) (x : addr) (o : dot_obj) (p : string) (v : value) :
  plain_name p = true -> h !! x = Some (ODot o) ->
  setattr h (VRef x) p v
  = Ok (<[x := ODot (MkDot (_data o) (_namespace o) (<[p := v]> (attrs o)))]> h).
Proof. intros Hp Hx. unfold setattr. by rewrite Hp, Hx. Qed.

(** ** Assignment and the ordered store *)


(** ** The sample accessor *)

Lemma sample_accessor : accessor sample_heap 0 sample_entries.
Proof.
  destruct (DotAccessDict_spec sample_source []) as (h' & Hrun & _ & Hrep);
    [vm_compute; reflexivity|].
  unfold accessor, sample_heap, run_sample. rewrite Hrun. exact Hrep.
Qed.

Lemma order_accessors :
  accessor order_heap 0 [("a", TVal (VInt 1)); ("b", TVal (VInt 2))] /\
  accessor order_heap 1 [("b", TVal (VInt 2)); ("a", TVal (VInt 1))].
Proof.
  destruct (DotAccessDict_spec source_ab []) as (h1 & Hrun1 & _ & Hrep1);
    [reflexivity|].
  destruct (DotAccessDict_spec source_ba h1) as (h2 & Hrun2 & Hpre2 & Hrep2);
    [reflexivity|].
  assert (Hlen : length h1 = 1).
  { vm_compute in Hrun1. by injection Hrun1 as <-. }
  unfold accessor, order_heap. rewrite Hrun1, Hrun2. rewrite Hlen in Hrep2.
  split; [by eapply repr_prefix|].
  eapply repr_weaken; [|exact Hrep2]. lia.
Qed.

Lemma C5_sort_orders_every_level_witness :
  exists h' r its',
    call_sort 3 sample_heap 0 None false = Ok (h', r) /\
    accessor h' r its' /\
    key_ordered false (map fst its') /\
    is_sort_of false (TDot sample_entries) (TDot its').
Proof.
  apply (C5_sort_orders_every_level false sample_heap 0 sample_entries 3);
    [exact sample_accessor | vm_compute; lia].
Defined.

Lemma C6_sort_leaves_source_witness :
  exists h' r,
    call_sort 3 sample_heap 0 None true = Ok (h', r) /\
    sample_heap !! r = None /\
    repr (length sample_heap) h' true (VRef r) (tsort true (TDot sample_entries)) /\
    (forall a o, sample_heap !! a = Some o -> h' !! a = Some o) /\
    accessor h' 0 sample_entries /\
    call_keys h' 0 = call_keys sample_heap 0 /\
    call_items h' 0 = call_items sample_heap 0 /\
    call_values h' 0 = call_values sample_heap 0.
Proof.
  apply (C6_sort_leaves_source true sample_heap 0 sample_entries 3);
    [exact sample_accessor | vm_compute; lia].
Defined.

Lemma C7_sort_idempotent_witness :
  exists h1 s1 h2 s2,
    call_sort 3 sample_heap 0 None false = Ok (h1, s1) /\
    call_sort 3 h1 s1 None false = Ok (h2, s2) /\
    py_eq 3 h2 (VRef s2) (VRef s1) = Ok true.
Proof.
  apply (C7_sort_idempotent false sample_heap 0 sample_entries 3);
    [exact sample_accessor | vm_compute; lia].
Defined.

Lemma C4_equality_is_ordered_witness :
  py_eq 1 order_heap (VRef 0) (VRef 1)
    = Ok (spec_equal (TDot [("a", TVal (VInt 1)); ("b", TVal (VInt 2))])
                     (TDot [("b", TVal (VInt 2)); ("a", TVal (VInt 1))])) /\
  DotAccessDict_eq 1 order_heap 0 (VRef 1)
    = Ok (spec_equal (TDot [("a", TVal (VInt 1)); ("b", TVal (VInt 2))])
                     (TDot [("b", TVal (VInt 2)); ("a", TVal (VInt 1))])) /\
  (keys order_heap 0 <> keys order_heap 1 ->
   py_eq 1 order_heap (VRef 0) (VRef 1) = Ok false) /\
  (forall w, is_dot order_heap w = false ->
             DotAccessDict_eq 1 order_heap 0 w = Ok false).
Proof.
  apply (C4_equality_is_ordered order_heap 0 1
           [("a", TVal (VInt 1)); ("b", TVal (VInt 2))]
           [("b", TVal (VInt 2)); ("a", TVal (VInt 1))] 1);
    [exact (proj1 order_accessors) | exact (proj2 order_accessors)
    | vm_compute; lia].
Defined.

Lemma C8_assignment_visible_witness :
  exists h',
    setattr sample_heap (VRef 1) "e" (VInt 42) = Ok h' /\
    h' !! 1 = Some (ODot (MkDot (_data (dot_at sample_heap 1))
                                (_namespace (dot_at sample_heap 1))
                                (<["e" := VInt 42]> (attrs (dot_at sample_heap 1))))) /\
    (forall a, a <> 1 -> h' !! a = sample_heap !! a) /\
    getattr h' (VRef 1) "e" = Ok (h', VInt 42) /\
    (is_class_attr "e" = false ->
     (forall d, call_get h' 1 "e" d = call_get sample_heap 1 "e" d) /\
     call_items h' 1 = call_items sample_heap 1).
Proof.
  apply (C8_assignment_visible sample_heap 1 (dot_at sample_heap 1) "e" (VInt 42));
    reflexivity.
Defined.


(** An assigned attribute hides the method of the same name: after
    [x.c.sort = 5] the call [x.sort()] raises TypeError at the nested
    instance; after [x.items = 5] so does [x == x]; after [x.keys = 5]
    [x.keys()] raises, while [==] and [sort], which do not call [keys],
    go on as before. *)
Lemma hidden_method_example :
  (exists h1, setattr sample_heap (VRef 1) "sort" (VInt 5) = Ok h1 /\
              call_sort 3 h1 0 None false = Err TypeError) /\
  (exists h2, setattr sample_heap (VRef 0) "items" (VInt 5) = Ok h2 /\
              py_eq 3 h2 (VRef 0) (VRef 0) = Err TypeError) /\
  (exists h3, setattr sample_heap (VRef 0) "keys" (VInt 5) = Ok h3 /\
              call_keys h3 0 = Err TypeError /\
              py_eq 3 h3 (VRef 0) (VRef 0) = Ok true /\
              exists h4 r, call_sort 3 h3 0 None false = Ok (h4, r)).
Proof.
  split; [|split]; eexists; (split; [reflexivity|]);
    [reflexivity|reflexivity|].
  split; [reflexivity|]. split; [reflexivity|]. eexists _, _. reflexivity.
Qed.

(** The mappings [{a: 1, b: 2}] and [{b: 2, a: 1}] give accessors that
    are not equal. *)
Lemma order_matters_example :
  exists h1 x h2 y,
    DotAccessDict (VDict [("a", VInt 1); ("b", VInt 2)]) [] = Ok (h1, x) /\
    DotAccessDict (VDict [("b", VInt 2); ("a", VInt 1)]) h1 = Ok (h2, y) /\
    py_eq 1 h2 (VRef x) (VRef y) = Ok false.
Proof. eexists _, _, _, _. repeat split; reflexivity. Qed.

(** The scenario of [main]: [x.c.e] is present and falsy, [x.c.e = 42]
    writes to the nested instance that [x.c] returns, and [x.c.e] reads
    it back; [x.c] still lists [e] with its old value. *)
Lemma nested_assignment_example :
  exists c h1,
    getattr_chain sample_heap (VRef 0) ["c"] = Ok (sample_heap, VRef c) /\
    getattr_chain sample_heap (VRef 0) ["c"; "e"] = Ok (sample_heap, VNone) /\
    setattr sample_heap (VRef c) "e" (VInt 42) = Ok h1 /\
    getattr_chain h1 (VRef 0) ["c"; "e"] = Ok (h1, VInt 42) /\
    items h1 c = Ok [("e", VNone)].
Proof. eexists _, _. repeat split; reflexivity. Qed.

(** * Further properties of the code *)

(** ** The ordered store *)

Lemma od_get_od_set (d : list (string * value)) (k k' : string) (v : value) :
  od_get (od_set d k v) k' = if String.eqb k k' then Some v else od_get d k'.
Proof.
  induction d as [|[k0 v0] d IH]; simpl.
  - by destruct (String.eqb k k').
  - destruct (String.eqb_spec k0 k) as [->|Hne]; simpl.
    + by destruct (String.eqb k k').
    + rewrite IH. destruct (String.eqb_spec k0 k') as [->|Hne']; [|done].
      destruct (String.eqb_spec k k'); congruence.
Qed.

Lemma od_set_keys_elem (d : list (string * value)) (k k' : string) (v : value) :
  k' ∈ map fst (od_set d k v) <-> k' = k \/ k' ∈ map fst d.
Proof.
  induction d as [|[k0 v0] d IH]; simpl.
  - rewrite list_elem_of_singleton. split; [auto|]. intros [?|H]; [done|].
    by apply elem_of_nil in H.
  - destruct (String.eqb_spec k0 k) as [->|Hne]; simpl;
      rewrite !elem_of_cons; [tauto|]. rewrite IH. tauto.
Qed.

Lemma od_set_NoDup (d : list (string * value)) (k : string) (v : value) :
  NoDup (map fst d) -> NoDup (map fst (od_set d k v)).
Proof.
  induction d as [|[k0 v0] d IH]; simpl; intros Hnd.
  - repeat constructor. by intros H%elem_of_nil.
  - apply NoDup_cons in Hnd as [Hk0 Hnd].
    destruct (String.eqb_spec k0 k) as [->|Hne]; simpl.
    + by apply NoDup_cons.
    + apply NoDup_cons. split; [|by apply IH].
      rewrite od_set_keys_elem. intros [?|?]; congruence.
Qed.

Lemma od_get_None (d : list (string * value)) (k : string) :
  od_get d k = None <-> k ∉ map fst d.
Proof.
  induction d as [|[k0 v0] d IH]; simpl.
  - split; [intros _ H; by apply elem_of_nil in H|done].
  - rewrite not_elem_of_cons.
    destruct (String.eqb_spec k0 k) as [->|Hne]; [split; [done|tauto]|].
    rewrite IH. split; [intros ?; split; [congruence|done]|tauto].
Qed.

Lemma od_get_Some_in (d : list (string * value)) (k : string) (v : value) :
  od_get d k = Some v -> (k, v) ∈ d.
Proof.
  induction d as [|[k0 v0] d IH]; simpl; [done|].
  destruct (String.eqb_spec k0 k) as [->|Hne].
  - intros [= ->]. left.
  - intros H. right. by apply IH.
Qed.

Lemma obj_inv_closed : store_closed obj_inv.
Proof.
  split.
  - split; [apply NoDup_nil_2|]. split; [constructor|].
    intros k. apply lookup_empty.
  - intros o k v (Hnd & Hdu & Hns) Hk. split; [|split]; simpl.
    + by apply od_set_NoDup.
    + rewrite List.Forall_forall in *. intros k' Hin.
      apply list_elem_of_In, od_set_keys_elem in Hin as [->|Hin]; [done|].
      by apply Hdu, list_elem_of_In.
    + intros k'. rewrite od_get_od_set.
      destruct (String.eqb_spec k k') as [->|Hne].
      * apply lookup_insert_eq.
      * rewrite lookup_insert_ne by done. apply Hns.
Qed.

Lemma no_attrs_closed : store_closed no_attrs.
Proof. split; [done|]. by intros o k v Ho _. Qed.

(** ** Invariants kept by construction and sorting *)

Section keeps.
Variables (lo : addr) (P : dot_obj -> Prop).
Hypothesis HP : store_closed P.

Lemma all_dots_alloc (h : heap) :
  all_dots lo P h -> all_dots lo P (h ++ [ODot empty_dot]).
Proof.
  intros Hh a o Ha Hl. apply lookup_app_Some in Hl as [Hl|[_ Hl]]; [by eapply Hh|].
  apply list_lookup_singleton_Some in Hl as [_ [= <-]]. apply HP.
Qed.

Lemma all_dots_store (h h' : heap) (res : addr) (k : string) (v : value) :
  all_dots lo P h -> store_entry h res k v = Ok h' -> all_dots lo P h'.
Proof.
  intros Hh. unfold store_entry, get_dot, ns_setattr.
  destruct (h !! res) as [[o|s]|] eqn:Hres; simpl; try done.
  destruct (String.eqb k "__class__") eqn:Hc; simpl; [done|].
  destruct (String.eqb k "__dict__") eqn:Hd; simpl; [done|].
  intros [= <-] a o' Ha Hl.
  destruct (decide (a = res)) as [->|Hne].
  - rewrite list_lookup_insert_eq in Hl by (eapply lookup_lt_Some; eauto).
    injection Hl as <-. apply HP; [|unfold ns_reserved; by rewrite Hc, Hd].
    destruct (decide (lo <= res)); [by eapply Hh|lia].
  - rewrite list_lookup_insert_ne in Hl by done. by eapply Hh.
Qed.

Lemma wrap_items_keeps (l : list value) :
  Forall (built_keeps lo P) l ->
  forall h h1 l', all_dots lo P h -> wrap_items l h = Ok (h1, l') -> all_dots lo P h1.
Proof.
  induction 1 as [|x l Hx _ IH]; intros h h1 l' Hh; simpl; [by intros [= <- _]|].
  destruct (wrap_item h x) as [[h2 e]|] eqn:Hw; simpl; [|done].
  destruct (wrap_items l h2) as [[h3 es]|] eqn:Hws; simpl; [|done].
  intros [= <- _]. eapply IH; [|exact Hws].
  unfold wrap_item in Hw. destruct x; try (by injection Hw as <- _).
  destruct (DotAccessDict _ h) as [[h4 c]|] eqn:Hc; simpl in Hw; [|done].
  injection Hw as <- _. by eapply Hx.
Qed.

Lemma wrap_value_keeps (x : value) :
  built_keeps lo P x -> (forall l, x = VList l -> Forall (built_keeps lo P) l) ->
  forall h h1 v', all_dots lo P h -> wrap_value h x = Ok (h1, v') -> all_dots lo P h1.
Proof.
  intros Hb Hl h h1 v' Hh Hw. unfold wrap_value in Hw.
  destruct x as [| | | |l|d| |]; try (by injection Hw as <- _).
  - destruct (wrap_items l h) as [[h2 l']|] eqn:Hws; simpl in Hw; [|done].
    injection Hw as <- _.
    exact (wrap_items_keeps l (Hl l eq_refl) h h2 l' Hh Hws).
  - destruct (DotAccessDict _ h) as [[h4 c]|] eqn:Hc; simpl in Hw; [|done].
    injection Hw as <- _. by eapply Hb.
Qed.

Lemma update_from_keeps (self : addr) (d : list (string * value)) :
  Forall (fun kv => built_keeps lo P kv.2 /\
                    (forall l, kv.2 = VList l -> Forall (built_keeps lo P) l)) d ->
  forall h h', all_dots lo P h -> update_from self d h = Ok h' -> all_dots lo P h'.
Proof.
  induction 1 as [|[k x] d [Hb Hl] _ IH]; intros h h' Hh; simpl; [by intros [= <-]|].
  destruct (wrap_value h x) as [[h1 v']|] eqn:Hw; simpl; [|done].
  destruct (store_entry h1 self k v') as [h2|] eqn:Hs; simpl; [|done].
  apply IH. eapply all_dots_store; [|exact Hs].
  eapply wrap_value_keeps; eauto.
Qed.

Lemma DotAccessDict_keeps_all (v : value) :
  built_keeps lo P v /\ (forall l, v = VList l -> Forall (built_keeps lo P) l).
Proof.
  assert (Hnd : forall v, is_dict v = false -> built_keeps lo P v).
  { intros w Hw h h' x Hh. rewrite DotAccessDict_non_dict by done.
    intros [= <- _]. by apply all_dots_alloc. }
  induction v as [| | | |l IH|d IH| |] using value_ind';
    try (split; [by apply Hnd|discriminate]).
  - split; [by apply Hnd|].
    intros l' [= <-]. eapply Forall_impl; [exact IH|]. by intros ? [? _].
  - split; [|discriminate]. intros h h' x Hh.
    destruct d as [|kv d'] eqn:Hd.
    { rewrite DotAccessDict_empty_dict. intros [= <- _]. by apply all_dots_alloc. }
    rewrite <- Hd in *. rewrite DotAccessDict_dict by (by rewrite Hd).
    destruct (update_from _ d _) as [h1|] eqn:Hu; simpl; [|done].
    intros [= <- _]. eapply update_from_keeps; [exact IH| |exact Hu].
    by apply all_dots_alloc.
Qed.

Lemma DotAccessDict_keeps (v : value) (h h' : heap) (x : addr) :
  all_dots lo P h -> DotAccessDict v h = Ok (h', x) -> all_dots lo P h'.
Proof. apply (proj1 (DotAccessDict_keeps_all v)). Qed.

(** The same for [sort], whatever the key function. *)
Section sort_keeps.
Variable rec : heap -> addr -> result (heap * addr).
Hypothesis Hrec : forall h c h' r,
  all_dots lo P h -> rec h c = Ok (h', r) -> all_dots lo P h'.

Lemma sort_instance_keeps (h h' : heap) (v v' : value) :
  all_dots lo P h -> sort_instance rec h v = Ok (h', v') -> all_dots lo P h'.
Proof.
  intros Hh. destruct v; simpl; try (by intros [= <- _]).
  destruct (bound_method h a "sort") as [[]|]; simpl; [|done].
  destruct (rec h a) as [[h1 r]|] eqn:Hr; simpl; [|done].
  intros [= <- _]. by eapply Hrec.
Qed.

Lemma sort_item_keeps (h h' : heap) (v v' : value) :
  all_dots lo P h -> sort_item rec h v = Ok (h', v') -> all_dots lo P h'.
Proof.
  intros Hh. unfold sort_item. destruct (is_dot h v).
  - by apply sort_instance_keeps.
  - by intros [= <- _].
Qed.

Lemma sort_each_keeps (l : list value) :
  forall h h' l', all_dots lo P h -> sort_each rec l h = Ok (h', l') -> all_dots lo P h'.
Proof.
  induction l as [|x l IH]; intros h h' l' Hh; simpl; [by intros [= <- _]|].
  destruct (sort_item rec h x) as [[h1 e]|] eqn:Hx; simpl; [|done].
  destruct (sort_each rec l h1) as [[h2 es]|] eqn:Hl; simpl; [|done].
  intros [= <- _]. eapply IH; [|exact Hl]. by eapply sort_item_keeps.
Qed.

Lemma sort_value_keeps (h h' : heap) (v v' : value) :
  all_dots lo P h -> sort_value rec h v = Ok (h', v') -> all_dots lo P h'.
Proof.
  intros Hh. unfold sort_value. destruct (is_dot h v).
  - by apply sort_instance_keeps.
  - destruct v as [| | | |l| | |]; try (by intros [= <- _]).
    destruct (sort_each rec l h) as [[h1 es]|] eqn:Hl; simpl; [|done].
    intros [= <- _]. by eapply sort_each_keeps.
Qed.

Lemma sort_loop_keeps (res : addr) (l : list (string * value)) :
  forall h h', all_dots lo P h -> sort_loop rec res l h = Ok h' -> all_dots lo P h'.
Proof.
  induction l as [|[k v] l IH]; intros h h' Hh; simpl; [by intros [= <-]|].
  destruct (sort_value rec h v) as [[h1 e]|] eqn:Hv; simpl; [|done].
  destruct (store_entry h1 res k e) as [h2|] eqn:Hs; simpl; [|done].
  apply IH. eapply all_dots_store; [|exact Hs]. by eapply sort_value_keeps.
Qed.
End sort_keeps.

Lemma sort_keeps (key : option (string * value -> string)) (rv : bool) (fuel : nat) :
  forall h x h' r,
    all_dots lo P h -> sort fuel h x key rv = Ok (h', r) -> all_dots lo P h'.
Proof.
  induction fuel as [|n IH]; intros h x h' r Hh; [done|].
  simpl. destruct (items h x) as [xs|]; simpl; [|done].
  destruct (sort_loop _ _ _ _) as [h1|] eqn:Hl; simpl; [|done].
  intros [= <- _]. eapply sort_loop_keeps; [|by apply all_dots_alloc|exact Hl].
  intros h0 c h2 r0. apply IH.
Qed.
End keeps.

Lemma all_dots_nil (lo : addr) (P : dot_obj -> Prop) : all_dots lo P [].
Proof. intros a o _ H. done. Qed.

Lemma built_heap_inv (src : value) : all_dots 0 obj_inv (built_heap src).
Proof.
  unfold built_heap.
  destruct (DotAccessDict src []) as [[h x]|] eqn:Hrun; [|apply all_dots_nil].
  eapply (DotAccessDict_keeps 0 obj_inv obj_inv_closed); [|exact Hrun].
  apply all_dots_nil.
Qed.

(** The constructor stores a key that starts with two underscores, and
    raises on the two names a namespace refuses. *)
Lemma dunder_keys_example :
  (exists h x, DotAccessDict dunder_source [] = Ok (h, x) /\
               keys h x = Ok ["__x"; "a"] /\
               call_get h x "__x" VNone = Ok (VInt 1)) /\
  DotAccessDict (VDict [("__class__", VInt 1)]) [] = Err TypeError /\
  DotAccessDict (VDict [("__dict__", VInt 1)]) [] = Err AttributeError.
Proof. split; [eexists _, _|]; repeat split; reflexivity. Qed.

(** X1: the class invariant (distinct keys in [_data], none of them
    [__class__] or [__dict__], which a namespace refuses, and
    [_namespace] holding exactly the entries of [_data], keys that start
    with two underscores included) is kept by the constructor on any
    input, by [sort] with any key function, by attribute assignment and
    by attribute access. *)
Theorem class_invariant_kept (h : heap) :
  all_dots 0 obj_inv h ->
  (forall data h' x, DotAccessDict data h = Ok (h', x) -> all_dots 0 obj_inv h') /\
  (forall fuel x key rv h' r,
     sort fuel h x key rv = Ok (h', r) -> all_dots 0 obj_inv h') /\
  (forall v p w h', setattr h v p w = Ok h' -> all_dots 0 obj_inv h') /\
  (forall v p h' w, getattr h v p = Ok (h', w) -> all_dots 0 obj_inv h').
Proof.
  intros Hh. split; [|split; [|split]].
  - intros data h' x. by apply (DotAccessDict_keeps 0 obj_inv obj_inv_closed).
  - intros fuel x key rv h' r. by apply (sort_keeps 0 obj_inv obj_inv_closed).
  - intros v p w h'. unfold setattr. destruct (negb (plain_name p)); [done|].
    destruct v as [| | | | | |a|]; try done.
    destruct (h !! a) as [[o|s]|] eqn:Ha; [| |done]; intros [= <-] b ob _ Hb.
    + destruct (decide (b = a)) as [->|Hne].
      * rewrite list_lookup_insert_eq in Hb by (eapply lookup_lt_Some; eauto).
        injection Hb as <-. exact (Hh a o (Nat.le_0_l _) Ha).
      * rewrite list_lookup_insert_ne in Hb by done. by eapply Hh; [lia|].
    + destruct (decide (b = a)) as [->|Hne].
      * rewrite list_lookup_insert_eq in Hb by (eapply lookup_lt_Some; eauto).
        done.
      * rewrite list_lookup_insert_ne in Hb by done. by eapply Hh; [lia|].
  - intros v p h' w. unfold getattr. destruct (negb (plain_name p)); [done|].
    destruct v as [| | | | | |a|]; try done.
    destruct (h !! a) as [[o|s]|] eqn:Ha; [| |done].
    + destruct (attrs o !! p); [by intros [= <- _]|].
      destruct (is_class_attr p); [by intros [= <- _]|].
      destruct (_namespace o !! p); intros [= <- _]; [done|].
      intros b ob _ Hb. apply lookup_app_Some in Hb as [Hb|[_ Hb]];
        [by eapply Hh; [lia|]|].
      by apply list_lookup_singleton_Some in Hb as [_ ?].
    + destruct (s !! p); by intros [= <- _].
Qed.

Lemma class_invariant_kept_witness :
  (forall data h' x, DotAccessDict data (built_heap dunder_source) = Ok (h', x) ->
                     all_dots 0 obj_inv h') /\
  (forall fuel x key rv h' r,
     sort fuel (built_heap dunder_source) x key rv = Ok (h', r) ->
     all_dots 0 obj_inv h') /\
  (forall v p w h', setattr (built_heap dunder_source) v p w = Ok h' ->
                    all_dots 0 obj_inv h') /\
  (forall v p h' w, getattr (built_heap dunder_source) v p = Ok (h', w) ->
                    all_dots 0 obj_inv h').
Proof.
  apply (class_invariant_kept (built_heap dunder_source)).
  exact (built_heap_inv dunder_source).
Defined.

(** ** [get] and dot access *)

(** X2: [get(key, default)] returns the value stored under [key], and
    [default] when the key is not stored. *)
Theorem get_present_or_default (h : heap) (x : addr) (o : dot_obj)
  (k : string) (dflt : value) :
  h !! x = Some (ODot o) -> NoDup (map fst (_data o)) ->
  (forall v, (k, v) ∈ _data o -> get h x k dflt = Ok v) /\
  (k ∉ map fst (_data o) -> get h x k dflt = Ok dflt).
Proof.
  intros Hx Hnd. unfold get, get_dot. rewrite Hx. simpl. split.
  - intros v Hin. by rewrite (od_get_in _ _ _ Hnd Hin).
  - intros Hk. apply od_get_None in Hk. by rewrite Hk.
Qed.

Lemma get_present_or_default_witness :
  (forall v, ("c", v) ∈ [("c", VInt 1); ("d", VInt 2)] ->
     get [ODot (MkDot [("c", VInt 1); ("d", VInt 2)] ∅ ∅)] 0 "c" VNone = Ok v) /\
  ("c" ∉ map fst [("c", VInt 1); ("d", VInt 2)] ->
     get [ODot (MkDot [("c", VInt 1); ("d", VInt 2)] ∅ ∅)] 0 "c" VNone = Ok VNone).
Proof.
  apply (get_present_or_default
           [ODot (MkDot [("c", VInt 1); ("d", VInt 2)] ∅ ∅)] 0
           (MkDot [("c", VInt 1); ("d", VInt 2)] ∅ ∅) "c" VNone);
    [reflexivity|simpl; apply (bool_decide_unpack _); vm_compute; exact I].
Defined.

Lemma getattr_get_agree (h : heap) (x : addr) (o : dot_obj) (k : string) :
  h !! x = Some (ODot o) -> obj_inv o ->
  plain_name k = true -> is_class_attr k = false -> attrs o !! k = None ->
  (forall v, (k, v) ∈ _data o ->
     getattr h (VRef x) k = Ok (h, v) /\ forall dflt, get h x k dflt = Ok v) /\
  (k ∉ map fst (_data o) ->
     getattr h (VRef x) k = Ok (h ++ [OSafeNone ∅], VRef (length h)) /\
     forall dflt, get h x k dflt = Ok dflt).
Proof.
  intros Hx (Hnd & _ & Hns) Hp Hc Ha.
  unfold getattr, get, get_dot. rewrite Hp, Hx, Ha, Hc, Hns. simpl. split.
  - intros v Hin. by rewrite (od_get_in _ _ _ Hnd Hin).
  - intros Hk. apply od_get_None in Hk. by rewrite Hk.
Qed.

(** X3: on an instance that keeps the class invariant, for a key that
    is no method name and has no assigned attribute over it, [x.k]
    returns what [get(k)] returns when the key is stored, without
    touching the heap; when it is not stored [x.k] is a new SafeNone
    and [get(k, default)] is [default]. *)
Theorem dot_access_reads_store (h : heap) (x : addr) (o : dot_obj) (k : string) :
  h !! x = Some (ODot o) -> obj_inv o ->
  plain_name k = true -> is_class_attr k = false -> attrs o !! k = None ->
  (forall v, (k, v) ∈ _data o ->
     getattr h (VRef x) k = Ok (h, v) /\ forall dflt, get h x k dflt = Ok v) /\
  (k ∉ map fst (_data o) ->
     getattr h (VRef x) k = Ok (h ++ [OSafeNone ∅], VRef (length h)) /\
     forall dflt, get h x k dflt = Ok dflt).
Proof. apply getattr_get_agree. Qed.

(** X4: a stored key that is also the name of a method of the class is
    out of reach of dot access: [x.k] is the bound method, while
    [get(k)] still returns the stored value. *)
Theorem method_name_shadows_key (h : heap) (x : addr) (o : dot_obj)
  (k : string) (v dflt : value) :
  h !! x = Some (ODot o) -> obj_inv o ->
  is_class_attr k = true -> attrs o !! k = None -> (k, v) ∈ _data o ->
  getattr h (VRef x) k = Ok (h, VMethod x k) /\ get h x k dflt = Ok v.
Proof.
  intros Hx (Hnd & _ & _) Hc Ha Hin.
  assert (Hp : plain_name k = true).
  { unfold is_class_attr in Hc. apply bool_decide_eq_true in Hc.
    unfold class_attrs in Hc.
    repeat (apply elem_of_cons in Hc as [->|Hc]; [reflexivity|]).
    by apply elem_of_nil in Hc. }
  unfold getattr, get, get_dot. rewrite Hp, Hx, Ha, Hc. simpl.
  by rewrite (od_get_in _ _ _ Hnd Hin).
Qed.

Lemma dot_access_reads_store_witness :
  (forall v, ("c", v) ∈ _data (dot_at sample_heap 0) ->
     getattr sample_heap (VRef 0) "c" = Ok (sample_heap, v) /\
     forall dflt, get sample_heap 0 "c" dflt = Ok v) /\
  ("c" ∉ map fst (_data (dot_at sample_heap 0)) ->
     getattr sample_heap (VRef 0) "c"
       = Ok (sample_heap ++ [OSafeNone ∅], VRef (length sample_heap)) /\
     forall dflt, get sample_heap 0 "c" dflt = Ok dflt).
Proof.
  apply (dot_access_reads_store sample_heap 0 (dot_at sample_heap 0) "c");
    [reflexivity | | reflexivity | reflexivity | reflexivity].
  apply (built_heap_inv sample_source 0); [lia|reflexivity].
Defined.

Lemma method_name_shadows_key_witness :
  getattr (built_heap shadow_source) (VRef 0) "keys"
    = Ok (built_heap shadow_source, VMethod 0 "keys") /\
  get (built_heap shadow_source) 0 "keys" VNone = Ok (VInt 1).
Proof.
  apply (method_name_shadows_key (built_heap shadow_source) 0
           (dot_at (built_heap shadow_source) 0) "keys" (VInt 1) VNone);
    [reflexivity | | reflexivity | reflexivity | vm_compute; left].
  apply (built_heap_inv shadow_source 0); [lia|reflexivity].
Defined.

(** ** Reading back what was constructed *)

Lemma entries_lookup {T} (R : value -> T -> Prop) (f : value -> T)
  (dd : list (string * value)) (d : list (string * value)) (k : string) (sv : value) :
  Forall2 (fun kv kt => kv.1 = kt.1 /\ R kv.2 kt.2) dd
          (map (fun kv => (kv.1, f kv.2)) d) ->
  (k, sv) ∈ d ->
  exists v, (k, v) ∈ dd /\ R v (f sv).
Proof.
  revert dd. induction d as [|[k0 sv0] d IH]; intros dd Hf Hin;
    [by apply elem_of_nil in Hin|].
  inversion Hf as [|[k1 v1] ? dd' ? [Hk Hv] Hf']; subst. simpl in *. subst k1.
  apply elem_of_cons in Hin as [[= -> ->]|Hin].
  - exists v1. split; [left|done].
  - destruct (IH dd' Hf' Hin) as (v & Hv' & HR). exists v. split; [by right|done].
Qed.

Lemma all_dots_fresh (h : heap) (P : dot_obj -> Prop) : all_dots (length h) P h.
Proof.
  intros a o Ha Hl. apply lookup_lt_Some in Hl. lia.
Qed.

(** X5: reading back.  After [DotAccessDict(S)] on a mapping [S], every
    key of [S] that is no method name and no private slot reads back by
    dot access, and by [get], as the value stored for it: a scalar as
    itself, a mapping or a list as the accessor or list built from it;
    the read leaves the heap as it is. *)
Theorem construction_round_trip (d : list (string * value)) (h : heap) :
  wf_source (VDict d) = true ->
  exists h' x,
    DotAccessDict (VDict d) h = Ok (h', x) /\
    forall k sv,
      (k, sv) ∈ d -> is_class_attr k = false -> private_slot k = false ->
      exists v,
        getattr h' (VRef x) k = Ok (h', v) /\
        (forall dflt, get h' x k dflt = Ok v) /\
        repr (length h) h' true v (entry_tree sv) /\
        (is_dict sv = false -> is_list sv = false -> v = sv).
Proof.
  intros Hwf.
  destruct (DotAccessDict_spec _ h Hwf) as (h' & Hrun & Hpre & Hrep).
  exists h', (length h). split; [exact Hrun|]. intros k sv Hin Hc Hs.
  rewrite tree_of_dict in Hrep.
  inversion Hrep as [e a o its Hlo Hlook Hmi Hnd Hdu Hents| |]; subst.
  assert (Hinv : obj_inv o).
  { eapply (DotAccessDict_keeps (length h) obj_inv obj_inv_closed);
      [apply all_dots_fresh|exact Hrun| |exact Hlook]. lia. }
  assert (Hat : no_attrs o).
  { eapply (DotAccessDict_keeps (length h) no_attrs no_attrs_closed);
      [apply all_dots_fresh|exact Hrun| |exact Hlook]. lia. }
  destruct (entries_lookup _ _ _ _ _ _ Hents Hin) as (v & Hv & Hr).
  assert (Hp : plain_name k = true).
  { unfold plain_name. rewrite Hs. rewrite andb_true_r.
    destruct (wf_source_dict_inv _ Hwf) as [_ Hall].
    rewrite List.Forall_forall in Hall.
    destruct (Hall (k, sv)) as [Hk _]; [by apply list_elem_of_In|].
    simpl in Hk. by rewrite Hk. }
  destruct (getattr_get_agree h' (length h) o k Hlook Hinv Hp Hc) as [Hget _].
  { unfold no_attrs in Hat. rewrite Hat. apply lookup_empty. }
  destruct (Hget v Hv) as [Hg1 Hg2].
  exists v. split; [done|]. split; [done|]. split; [done|].
  intros Hnd' Hnl. destruct sv; try discriminate; by inversion Hr.
Qed.

Lemma construction_round_trip_witness :
  exists h' x,
    DotAccessDict shadow_source [] = Ok (h', x) /\
    forall k sv,
      (k, sv) ∈ [("keys", VInt 1); ("name", VStr "n")] ->
      is_class_attr k = false -> private_slot k = false ->
      exists v,
        getattr h' (VRef x) k = Ok (h', v) /\
        (forall dflt, get h' x k dflt = Ok v) /\
        repr (length ([] : heap)) h' true v (entry_tree sv) /\
        (is_dict sv = false -> is_list sv = false -> v = sv).
Proof.
  apply (construction_round_trip [("keys", VInt 1); ("name", VStr "n")] []).
  vm_compute. reflexivity.
Defined.

(** ** Assignment through a missing segment *)

(** X6: when [c] is missing on [x], the assignment [x.c.e = v] lands on
    the SafeNone that [x.c] has just created, and is lost: the next
    [x.c] creates another SafeNone, and [x.c.e] is [None]. *)
Theorem assignment_through_missing_is_lost (h : heap) (x : addr) (o : dot_obj)
  (c e : string) (v : value) :
  h !! x = Some (ODot o) ->
  plain_name c = true -> plain_name e = true ->
  attrs o !! c = None -> is_class_attr c = false -> _namespace o !! c = None ->
  exists h1 sn h2 h3,
    getattr h (VRef x) c = Ok (h1, VRef sn) /\
    setattr h1 (VRef sn) e v = Ok h2 /\
    getattr h2 (VRef sn) e = Ok (h2, v) /\
    getattr_chain h2 (VRef x) [c; e] = Ok (h3, VNone).
Proof.
  intros Hx Hc He Ha Hcl Hn.
  assert (Hlt : x < length h) by (eapply lookup_lt_Some; eauto).
  exists (h ++ [OSafeNone ∅]), (length h),
         (h ++ [OSafeNone (<[e := v]> ∅)]),
         ((h ++ [OSafeNone (<[e := v]> ∅)]) ++ [OSafeNone ∅]).
  assert (Hins : <[length h := OSafeNone (<[e := v]> ∅)]> (h ++ [OSafeNone ∅])
                 = h ++ [OSafeNone (<[e := v]> ∅)]).
  { rewrite insert_app_r_alt by lia. by rewrite Nat.sub_diag. }
  split; [|split; [|split]].
  - unfold getattr. by rewrite Hc, Hx, Ha, Hcl, Hn.
  - unfold setattr. rewrite He, lookup_new. simpl. by rewrite Hins.
  - unfold getattr. rewrite He, lookup_new. simpl. by rewrite lookup_insert_eq.
  - simpl. unfold getattr at 1. rewrite Hc. simpl.
    rewrite lookup_app_l by done. rewrite Hx, Ha, Hcl, Hn. simpl.
    unfold getattr. rewrite He. simpl.
    rewrite length_app. simpl.
    replace (length h + 1) with (length (h ++ [OSafeNone (<[e := v]> ∅)]))
      by (rewrite length_app; simpl; lia).
    rewrite lookup_new. simpl. by rewrite lookup_empty.
Qed.

Lemma assignment_through_missing_is_lost_witness :
  exists h1 sn h2 h3,
    getattr [ODot empty_dot] (VRef 0) "c" = Ok (h1, VRef sn) /\
    setattr h1 (VRef sn) "e" (VInt 42) = Ok h2 /\
    getattr h2 (VRef sn) "e" = Ok (h2, VInt 42) /\
    getattr_chain h2 (VRef 0) ["c"; "e"] = Ok (h3, VNone).
Proof.
  apply (assignment_through_missing_is_lost [ODot empty_dot] 0 empty_dot "c" "e" (VInt 42));
    reflexivity.
Defined.

(** ** Sorting against the source *)

(** X7: on an accessor [x] (no instance of which has a method hidden by
    an assigned attribute) the comparison [x.sort() == x] that [main]
    makes is the comparison of the sorted tree with the tree of [x]; when
    the keys of [x] are not in key order already, it is false. *)
Theorem sort_differs_when_unsorted (rv : bool) (h : heap) (x : addr)
  (its : list (string * tree)) (fuel : nat) :
  accessor h x its -> depth (TDot its) <= fuel ->
  exists h' r,
    call_sort fuel h x None rv = Ok (h', r) /\
    py_eq fuel h' (VRef r) (VRef x)
      = Ok (spec_equal (tsort rv (TDot its)) (TDot its)) /\
    (~ key_ordered rv (map fst its) ->
     py_eq fuel h' (VRef r) (VRef x) = Ok false).
Proof.
  intros Hx Hfuel.
  destruct (call_sort_spec rv h x its fuel Hx Hfuel) as (h' & r & Hrun & Hpre & Hrep).
  apply (repr_weaken _ 0) in Hrep; [|lia].
  pose proof (repr_prefix _ _ _ _ _ _ Hpre Hx) as Hx'.
  pose proof (py_eq_spec h' _ fuel (depth_tsort rv _ _ Hfuel) true _ _ _ Hrep Hx')
    as Heq.
  exists h', r. split; [done|]. split; [done|].
  intros Hord. rewrite Heq. f_equal.
  destruct (spec_equal _ _) eqn:Hs; [|done].
  exfalso. apply Hord. rewrite tsort_dot in Hs.
  apply spec_equal_dot_keys in Hs. rewrite <- Hs. apply sorted_key_ordered.
Qed.

Lemma sort_differs_when_unsorted_witness :
  exists h' r,
    call_sort 3 sample_heap 0 None false = Ok (h', r) /\
    py_eq 3 h' (VRef r) (VRef 0)
      = Ok (spec_equal (tsort false (TDot sample_entries)) (TDot sample_entries)) /\
    (~ key_ordered false (map fst sample_entries) ->
     py_eq 3 h' (VRef r) (VRef 0) = Ok false).
Proof.
  apply (sort_differs_when_unsorted false sample_heap 0 sample_entries 3);
    [exact sample_accessor | vm_compute; lia].
Defined.

(** ** One sorted order *)

Lemma NoDup_map_inj_in {A B} (f : A -> B) (l : list A) (x y : A) :
  NoDup (map f l) -> x ∈ l -> y ∈ l -> f x = f y -> x = y.
Proof.
  induction l as [|z l IH]; simpl; intros Hnd Hx Hy Hf;
    [by apply elem_of_nil in Hx|].
  apply NoDup_cons in Hnd as [Hz Hnd].
  assert (Hin : forall w, w ∈ l -> f w ∈ map f l).
  { intros w Hw. apply list_elem_of_In, in_map, list_elem_of_In, Hw. }
  apply elem_of_cons in Hx as [->|Hx]; apply elem_of_cons in Hy as [->|Hy];
    try done.
  - exfalso. apply Hz. rewrite Hf. by apply Hin.
  - exfalso. apply Hz. rewrite <- Hf. by apply Hin.
  - by apply IH.
Qed.

Lemma key_ordered_unique {A} (sort_key : A -> string) (l1 l2 : list A) :
  NoDup (map sort_key l1) -> Permutation l1 l2 ->
  StronglySorted (key_le sort_key) l1 -> StronglySorted (key_le sort_key) l2 ->
  l1 = l2.
Proof.
  intros Hnd Hp H1 H2.
  apply (StronglySorted_unique_strong (key_le sort_key)); try done.
  intros x1 x2 Hx1 Hx2 H12 H21.
  apply (NoDup_map_inj_in sort_key l1); [done|done|by rewrite Hp|].
  by apply String.leb_antisym.
Qed.

(** [sorted] gives one answer for all orders of the same entries. *)
Lemma sorted_asc_canonical {A} (sort_key : A -> string) (l1 l2 : list A) :
  NoDup (map sort_key l1) -> Permutation l1 l2 ->
  sorted_asc sort_key l1 = sorted_asc sort_key l2.
Proof.
  intros Hnd Hp. apply (key_ordered_unique sort_key).
  - eapply NoDup_perm; [|exact Hnd]. apply Permutation_map. symmetry.
    apply sorted_asc_perm.
  - rewrite !sorted_asc_perm. exact Hp.
  - apply sorted_asc_ordered.
  - apply sorted_asc_ordered.
Qed.

Lemma sorted_canonical {A} (sort_key : A -> string) (rv : bool) (l1 l2 : list A) :
  NoDup (map sort_key l1) -> Permutation l1 l2 ->
  sorted sort_key rv l1 = sorted sort_key rv l2.
Proof.
  intros Hnd Hp. unfold sorted. destruct rv; [|by apply sorted_asc_canonical].
  f_equal. apply sorted_asc_canonical.
  - eapply NoDup_perm; [|exact Hnd]. apply Permutation_map, Permutation_rev.
  - by rewrite <- !Permutation_rev.
Qed.

Lemma sorted_reverse {A} (sort_key : A -> string) (l : list A) :
  NoDup (map sort_key l) ->
  sorted sort_key true l = rev (sorted sort_key false l).
Proof.
  intros Hnd. unfold sorted. f_equal. apply sorted_asc_canonical.
  - eapply NoDup_perm; [|exact Hnd]. apply Permutation_map, Permutation_rev.
  - symmetry. apply Permutation_rev.
Qed.

(** X8: [create_ordered_box] does not depend on the order of the source:
    two mappings with the same entries in different orders give the same
    call of [Box]. *)
Theorem create_ordered_box_canonical (h : heap) (d1 d2 : list (string * value)) :
  NoDup (map fst d1) -> Permutation d1 d2 ->
  create_ordered_box h (VDict d1) = create_ordered_box h (VDict d2).
Proof.
  intros Hnd Hp.
  change (Ok (Box (sorted fst false d1) true) = Ok (Box (sorted fst false d2) true)).
  by rewrite (sorted_canonical fst false d1 d2 Hnd Hp).
Qed.

Lemma create_ordered_box_canonical_witness :
  create_ordered_box [] (VDict [("b", VInt 2); ("a", VInt 1)])
  = create_ordered_box [] (VDict [("a", VInt 1); ("b", VInt 2)]).
Proof.
  apply (create_ordered_box_canonical []
           [("b", VInt 2); ("a", VInt 1)] [("a", VInt 1); ("b", VInt 2)]).
  - simpl. apply (bool_decide_unpack _). vm_compute. exact I.
  - apply perm_swap.
Defined.

Lemma map_fst_retag {A B C} (f : B -> C) (l : list (A * B)) :
  map fst (map (fun kt => (kt.1, f kt.2)) l) = map fst l.
Proof. induction l as [|[k c] l IH]; simpl; congruence. Qed.

(** X9: on an accessor [x] (no instance of which has a method hidden by
    an assigned attribute), the keys of [x.sort(reverse=True)] are those
    of [x.sort()] in reverse, and both are a rearrangement of the keys of
    the source. *)
Theorem sort_reverse_is_reversed (h : heap) (x : addr)
  (its : list (string * tree)) (fuel : nat) :
  accessor h x its -> depth (TDot its) <= fuel ->
  exists h1 r1 h2 r2 ks,
    call_sort fuel h x None false = Ok (h1, r1) /\
    call_sort fuel h x None true = Ok (h2, r2) /\
    call_keys h1 r1 = Ok ks /\
    call_keys h2 r2 = Ok (rev ks) /\
    Permutation ks (map fst its).
Proof.
  intros Hx Hfuel.
  destruct (call_sort_spec false h x its fuel Hx Hfuel) as (h1 & r1 & Hrun1 & _ & Hrep1).
  destruct (call_sort_spec true h x its fuel Hx Hfuel) as (h2 & r2 & Hrun2 & _ & Hrep2).
  apply (repr_weaken _ 0) in Hrep1; [|lia]. apply (repr_weaken _ 0) in Hrep2; [|lia].
  rewrite tsort_dot in Hrep1, Hrep2.
  rewrite (sorted_map fst fst (fun kt => (kt.1, tsort false kt.2))) in Hrep1 by done.
  rewrite (sorted_map fst fst (fun kt => (kt.1, tsort true kt.2))) in Hrep2 by done.
  assert (Hnd : NoDup (map fst its)).
  { inversion Hx; subst. erewrite <- entries_keys; eauto. }
  exists h1, r1, h2, r2, (map fst (sorted fst false its)).
  split; [done|]. split; [done|].
  destruct (accessor_calls _ _ _ _ _ Hrep1) as (_ & -> & _).
  destruct (accessor_calls _ _ _ _ _ Hrep2) as (_ & -> & _).
  rewrite (accessor_keys _ _ _ Hrep1), (accessor_keys _ _ _ Hrep2).
  rewrite !map_fst_retag. split; [done|]. split.
  - by rewrite (sorted_reverse fst its Hnd), map_rev.
  - apply Permutation_map, sorted_perm.
Qed.

Lemma sort_reverse_is_reversed_witness :
  exists h1 r1 h2 r2 ks,
    call_sort 3 sample_heap 0 None false = Ok (h1, r1) /\
    call_sort 3 sample_heap 0 None true = Ok (h2, r2) /\
    call_keys h1 r1 = Ok ks /\
    call_keys h2 r2 = Ok (rev ks) /\
    Permutation ks (map fst sample_entries).
Proof.
  apply (sort_reverse_is_reversed sample_heap 0 sample_entries 3);
    [exact sample_accessor | vm_compute; lia].
Defined.

(** ** [sort_nested_dictionary] *)

Lemma sort_nested_dictionary_dict (d : list (string * value)) :
  sort_nested_dictionary (VDict d) =
  VDict (sorted fst false (map (fun kv => (kv.1, sort_nested_dictionary kv.2)) d)).
Proof.
  simpl. do 2 f_equal. induction d as [|[k x] d IH]; simpl; congruence.
Qed.

#[local] Arguments sort_nested_dictionary : simpl never.

(** X10: sorting a sorted structure again changes nothing. *)
Theorem sort_nested_dictionary_idem (v : value) :
  sort_nested_dictionary (sort_nested_dictionary v) = sort_nested_dictionary v.
Proof.
  induction v as [| | | |l IH|d IH| |] using value_ind'; try reflexivity.
  - change (sort_nested_dictionary (VList l))
      with (VList (map sort_nested_dictionary l)).
    change (sort_nested_dictionary (VList (map sort_nested_dictionary l)))
      with (VList (map sort_nested_dictionary (map sort_nested_dictionary l))).
    f_equal. induction IH as [|x l Hx _ IHl]; simpl; congruence.
  - rewrite !sort_nested_dictionary_dict. f_equal.
    rewrite <- (sorted_map fst fst (fun kv => (kv.1, sort_nested_dictionary kv.2)))
      by done.
    rewrite sorted_idem. f_equal.
    induction IH as [|[k x] d Hx _ IHd]; simpl in *; [done|]. by rewrite Hx, IHd.
Qed.

Lemma dicts_ordered_dict (d : list (string * value)) :
  dicts_ordered (VDict d) <->
  key_ordered false (map fst d) /\ Forall (fun kv => dicts_ordered kv.2) d.
Proof.
  simpl. apply and_iff_compat_l.
  induction d as [|[k x] d IH]; [split; [constructor|done]|].
  rewrite Forall_cons, IH. done.
Qed.

Lemma dicts_ordered_list (l : list value) :
  dicts_ordered (VList l) <-> Forall dicts_ordered l.
Proof.
  simpl. induction l as [|x l IH]; [split; [constructor|done]|].
  rewrite Forall_cons, IH. done.
Qed.

(** X11: in the result every mapping, at any depth and also inside
    lists of lists, has its keys in ascending order; at the top the keys
    are those of the source, rearranged. *)
Theorem sort_nested_dictionary_orders (v : value) :
  dicts_ordered (sort_nested_dictionary v) /\
  (forall d, v = VDict d ->
     exists d', sort_nested_dictionary v = VDict d' /\
                Permutation (map fst d') (map fst d)).
Proof.
  split.
  - induction v as [| | | |l IH|d IH| |] using value_ind'; try exact I.
    + change (sort_nested_dictionary (VList l))
        with (VList (map sort_nested_dictionary l)).
      apply dicts_ordered_list. by apply List.Forall_map.
    + rewrite sort_nested_dictionary_dict. apply dicts_ordered_dict.
      split; [apply sorted_key_ordered|].
      eapply Permutation_Forall; [symmetry; apply sorted_perm|].
      apply List.Forall_map. exact IH.
  - intros d ->. rewrite sort_nested_dictionary_dict. eexists. split; [done|].
    rewrite sorted_perm. by rewrite map_fst_retag.
Qed.

(** ** The two sorts agree *)

Lemma plain_list_inv (l : list value) :
  plain (VList l) = true <-> Forall (fun e => plain e = true) l.
Proof.
  simpl. induction l as [|x l IH]; simpl; [split; [constructor|done]|].
  rewrite andb_true_iff, Forall_cons, IH. done.
Qed.

Lemma plain_dict_intro (d : list (string * value)) :
  NoDup (map fst d) -> Forall (fun kv => plain kv.2 = true) d ->
  plain (VDict d) = true.
Proof.
  intros Hnd Hp. simpl. apply andb_true_iff.
  split; [by apply bool_decide_eq_true|].
  induction Hp as [|[k x] d Hx _ IH]; [done|]. simpl in *.
  apply NoDup_cons in Hnd as [_ Hnd]. rewrite Hx. by apply IH.
Qed.

Lemma wf_source_dict_intro (d : list (string * value)) :
  NoDup (map fst d) ->
  Forall (fun kv => dunder kv.1 = false /\ entry_wf kv.2) d ->
  wf_source (VDict d) = true.
Proof.
  intros Hnd Hwf.
  change (wf_source (VDict d)) with
    (plain (VDict d) &&
     (fix each (d : list (string * value)) : bool :=
        match d with
        | [] => true
        | (k, x) :: d' =>
            negb (dunder k) &&
            match x with
            | VDict _ => wf_source x
            | VList l =>
                (fix elems (l : list value) : bool :=
                   match l with
                   | [] => true
                   | e :: l' =>
                       match e with
                       | VDict _ => wf_source e
                       | _ => true
                       end && elems l'
                   end) l
            | _ => true
            end && each d'
        end) d).
  apply andb_true_iff. split.
  - apply plain_dict_intro; [done|].
    eapply Forall_impl; [exact Hwf|]. by intros ? (_ & ? & _).
  - clear Hnd. induction Hwf as [|[k x] d (Hk & Hp & Hx) _ IH]; [done|].
    simpl in Hk, Hp, Hx. rewrite Hk, IH, andb_true_r. simpl.
    destruct x as [| | | |l|d'| |]; try done.
    induction Hx as [|e l [_ He] _ IHl]; [done|].
    rewrite IHl, andb_true_r; [|by apply plain_list_inv in Hp as [_ ?]%Forall_cons;
                                 apply plain_list_inv].
    destruct e; try done. by apply He.
Qed.

Lemma sort_nested_dictionary_is_dict (v : value) :
  is_dict (sort_nested_dictionary v) = is_dict v.
Proof. destruct v; reflexivity. Qed.

Lemma sort_nested_dictionary_plain (v : value) :
  plain v = true -> plain (sort_nested_dictionary v) = true.
Proof.
  induction v as [| | | |l IH|d IH| |] using value_ind'; intros Hp; try done.
  - change (sort_nested_dictionary (VList l))
      with (VList (map sort_nested_dictionary l)).
    apply plain_list_inv in Hp. apply plain_list_inv, List.Forall_map.
    rewrite List.Forall_forall in *. auto.
  - rewrite sort_nested_dictionary_dict.
    apply plain_dict_inv in Hp as [Hnd Hp]. apply plain_dict_intro.
    + eapply NoDup_perm; [|exact Hnd]. rewrite sorted_perm.
      by rewrite map_fst_retag.
    + eapply Permutation_Forall; [symmetry; apply sorted_perm|].
      apply List.Forall_map. simpl.
      rewrite List.Forall_forall in *. auto.
Qed.

Lemma sort_nested_dictionary_wf_all (v : value) :
  (wf_source v = true -> wf_source (sort_nested_dictionary v) = true) /\
  (forall l, v = VList l ->
     Forall (fun e => wf_source e = true ->
                      wf_source (sort_nested_dictionary e) = true) l).
Proof.
  induction v as [| | | |l IH|d IH| |] using value_ind';
    try (split; [done|discriminate]).
  - split.
    + intros Hwf. apply andb_true_iff in Hwf as [Hp _].
      apply sort_nested_dictionary_plain in Hp.
      change (sort_nested_dictionary (VList l))
        with (VList (map sort_nested_dictionary l)) in *.
      change (wf_source (VList (map sort_nested_dictionary l)))
        with (plain (VList (map sort_nested_dictionary l)) && true).
      by rewrite Hp.
    + intros l' [= <-]. eapply Forall_impl; [exact IH|]. by intros ? [? _].
  - split; [|discriminate]. intros Hwf.
    apply wf_source_dict_inv in Hwf as [Hnd Hwf].
    rewrite sort_nested_dictionary_dict. apply wf_source_dict_intro.
    + eapply NoDup_perm; [|exact Hnd]. rewrite sorted_perm.
      by rewrite map_fst_retag.
    + eapply Permutation_Forall; [symmetry; apply sorted_perm|].
      apply List.Forall_map. simpl.
      rewrite List.Forall_forall in *. intros [k x] Hin.
      destruct (Hwf _ Hin) as (Hk & Hp & Hx). destruct (IH _ Hin) as [IH1 IH2].
      simpl in *. split; [done|]. split; [by apply sort_nested_dictionary_plain|].
      destruct x as [| | | |l|d'| |]; try done.
      * change (sort_nested_dictionary (VList l))
          with (VList (map sort_nested_dictionary l)).
        apply List.Forall_map. specialize (IH2 l eq_refl).
        rewrite List.Forall_forall in *. intros e He.
        destruct (Hx e He) as [Hpe Hwe].
        split; [by apply sort_nested_dictionary_plain|].
        rewrite sort_nested_dictionary_is_dict. intros Hd.
        apply (IH2 e He). by apply Hwe.
      * rewrite sort_nested_dictionary_dict.
        rewrite <- sort_nested_dictionary_dict. by apply IH1.
Qed.

Lemma flat_lists_dict_inv (d : list (string * value)) :
  flat_lists (VDict d) = true -> Forall (fun kv => flat_lists kv.2 = true) d.
Proof.
  simpl. induction d as [|[k x] d IH]; intros H; constructor.
  - by apply andb_true_iff in H as [? _].
  - apply IH. by apply andb_true_iff in H as [_ ?].
Qed.

Lemma flat_lists_list_inv (l : list value) :
  flat_lists (VList l) = true ->
  Forall (fun e => is_list e = false /\ flat_lists e = true) l.
Proof.
  simpl. induction l as [|x l IH]; intros H; constructor.
  - apply andb_true_iff in H as [H _]. apply andb_true_iff in H as [H1 H2].
    split; [by destruct (is_list x)|done].
  - apply IH. by apply andb_true_iff in H as [_ ?].
Qed.

Lemma sort_nested_dictionary_tree_all (v : value) :
  (flat_lists v = true ->
   tree_of (sort_nested_dictionary v) = tsort false (tree_of v)) /\
  (forall l, v = VList l ->
     Forall (fun e => flat_lists e = true ->
                      tree_of (sort_nested_dictionary e) = tsort false (tree_of e)) l).
Proof.
  induction v as [| | | |l IH|d IH| |] using value_ind';
    try (split; [done|discriminate]).
  - split; [done|].
    intros l' [= <-]. eapply Forall_impl; [exact IH|]. by intros ? [? _].
  - split; [|discriminate]. intros Hfl. apply flat_lists_dict_inv in Hfl.
    rewrite sort_nested_dictionary_dict, !tree_of_dict, tsort_dot.
    rewrite <- (sorted_map fst fst (fun kv => (kv.1, entry_tree kv.2))) by done.
    do 2 f_equal. rewrite !map_map. simpl.
    apply map_ext_in. intros [k x] Hin. simpl. f_equal.
    rewrite List.Forall_forall in *.
    destruct (IH _ Hin) as [IH1 IH2]. specialize (Hfl _ Hin). simpl in *.
    destruct x as [| | | |l|d'| |]; try reflexivity.
    + change (sort_nested_dictionary (VList l))
        with (VList (map sort_nested_dictionary l)).
      simpl. f_equal. rewrite !map_map. apply map_ext_in. intros e He.
      apply flat_lists_list_inv in Hfl. specialize (IH2 l eq_refl).
      rewrite List.Forall_forall in *.
      destruct (Hfl e He) as [Hnl Hfe].
      destruct e as [| | | |l'|d'| |]; try reflexivity; [discriminate|].
      transitivity (tree_of (sort_nested_dictionary (VDict d'))).
      { by rewrite sort_nested_dictionary_dict. }
      rewrite (IH2 _ He Hfe). reflexivity.
    + transitivity (tree_of (sort_nested_dictionary (VDict d'))).
      { by rewrite sort_nested_dictionary_dict. }
      rewrite (IH1 Hfl). reflexivity.
Qed.

(** X12: on string keys the two variants sort alike.  The keys of the
    model are strings, for which the key [str(x[0])] of
    [sort_nested_dictionary] is the key itself and the order is that of
    [sort()]; keys of other types, which the two functions order
    differently, are not covered.  For a source mapping with string keys
    in which no list has a list as an element, the accessor built from
    the output of [sort_nested_dictionary] stands for the same tree as
    [x.sort()] of the accessor [x] built from the source, and [==] finds
    the two equal. *)
Theorem variants_sort_alike (d : list (string * value)) (h : heap) (fuel : nat) :
  wf_source (VDict d) = true -> flat_lists (VDict d) = true ->
  depth (tree_of (VDict d)) <= fuel ->
  tree_of (sort_nested_dictionary (VDict d)) = tsort false (tree_of (VDict d)) /\
  exists h1 x h2 r h3 y,
    DotAccessDict (VDict d) h = Ok (h1, x) /\
    call_sort fuel h1 x None false = Ok (h2, r) /\
    DotAccessDict (sort_nested_dictionary (VDict d)) h2 = Ok (h3, y) /\
    py_eq fuel h3 (VRef r) (VRef y) = Ok true.
Proof.
  intros Hwf Hfl Hfuel.
  pose proof (proj1 (sort_nested_dictionary_tree_all (VDict d)) Hfl) as Htree.
  split; [exact Htree|].
  destruct (DotAccessDict_spec _ h Hwf) as (h1 & Hrun1 & _ & Hrep1).
  apply (repr_weaken _ 0) in Hrep1; [|lia].
  rewrite tree_of_dict in Hrep1, Hfuel, Htree.
  destruct (call_sort_spec false h1 (length h) _ fuel Hrep1 Hfuel)
    as (h2 & r & Hrun2 & _ & Hrep2).
  apply (repr_weaken _ 0) in Hrep2; [|lia].
  destruct (DotAccessDict_spec _ h2
              (proj1 (sort_nested_dictionary_wf_all (VDict d)) Hwf))
    as (h3 & Hrun3 & Hpre3 & Hrep3).
  apply (repr_weaken _ 0) in Hrep3; [|lia]. rewrite Htree in Hrep3.
  exists h1, (length h), h2, r, h3, (length h2).
  split; [done|]. split; [done|]. split; [done|].
  rewrite (py_eq_spec h3 _ fuel (depth_tsort false _ _ Hfuel) true _ _ _
             (repr_prefix _ _ _ _ _ _ Hpre3 Hrep2) Hrep3).
  f_equal. by eapply spec_equal_refl.
Qed.

Lemma variants_sort_alike_witness :
  tree_of (sort_nested_dictionary sample_source) = tsort false (tree_of sample_source) /\
  exists h1 x h2 r h3 y,
    DotAccessDict sample_source [] = Ok (h1, x) /\
    call_sort 3 h1 x None false = Ok (h2, r) /\
    DotAccessDict (sort_nested_dictionary sample_source) h2 = Ok (h3, y) /\
    py_eq 3 h3 (VRef r) (VRef y) = Ok true.
Proof.
  apply (variants_sort_alike
           [("c", VDict [("e", VNone)]);
            ("Test1", VDict [("z", VInt 42);
                             ("b", VList [VDict [("y", VInt 1); ("x", VInt 2)]; VInt 7])])]
           [] 3);
    [vm_compute; reflexivity | vm_compute; reflexivity | vm_compute; lia].
Defined.

(** ** What [sort] leaves behind *)

Lemma repr_assign (lo : addr) (h : heap) (x : addr) (o : dot_obj)
  (p : string) (w : value) :
  h !! x = Some (ODot o) -> is_class_attr p = false ->
  forall t e v, repr lo h e v t ->
    repr lo (<[x := ODot (MkDot (_data o) (_namespace o) (<[p := w]> (attrs o)))]> h)
         e v t.
Proof.
  intros Hx Hp.
  assert (Hlt : x < length h) by (eapply lookup_lt_Some; eauto).
  induction t as [its IH|ts IH|u] using tree_ind';
    intros e v Hr; inversion Hr as [? a oa ? Hlo Hlook Hmi Hnd Hdu Hents| |]; subst.
  - assert (Hents' : Forall2 (fun kv kt => kv.1 = kt.1 /\
               repr lo (<[x := ODot (MkDot (_data o) (_namespace o)
                                           (<[p := w]> (attrs o)))]> h)
                    true kv.2 kt.2) (_data oa) its).
    { eapply Forall2_Forall_r; [exact IH| |exact Hents].
      simpl. intros kv kt Hkt [Hk Hkv]. auto. }
    destruct (decide (a = x)) as [->|Hne].
    + rewrite Hx in Hlook. injection Hlook as <-.
      eapply repr_dot with (o := MkDot _ _ _);
        [done|by apply list_lookup_insert_eq| |done|done|done].
      intros q Hq. simpl. rewrite lookup_insert_ne; [by apply Hmi|].
      intros ->. congruence.
    + eapply repr_dot; [done| |done|done|done|done].
      by rewrite list_lookup_insert_ne.
  - constructor. eapply Forall2_Forall_r; [exact IH| |eassumption]. auto.
  - by constructor.
Qed.

Lemma assigned_accessor : accessor assigned_heap 0 sample_entries.
Proof.
  assert (E : assigned_heap
              = <[0 := ODot (MkDot (_data (dot_at sample_heap 0))
                                   (_namespace (dot_at sample_heap 0))
                                   (<["note" := VStr "n"]> (attrs (dot_at sample_heap 0))))]>
                  (<[1 := ODot (MkDot (_data (dot_at sample_heap 1))
                                      (_namespace (dot_at sample_heap 1))
                                      (<["e" := VInt 42]> (attrs (dot_at sample_heap 1))))]>
                     sample_heap))
    by (vm_compute; reflexivity).
  unfold accessor. rewrite E.
  apply repr_assign; [reflexivity|reflexivity|].
  apply repr_assign; [reflexivity|reflexivity|].
  exact sample_accessor.
Qed.

(** The sample with its two assigned attributes: both read back. *)
Lemma assigned_heap_reads :
  getattr assigned_heap (VRef 0) "note" = Ok (assigned_heap, VStr "n") /\
  getattr_chain assigned_heap (VRef 0) ["c"; "e"] = Ok (assigned_heap, VInt 42).
Proof. split; reflexivity. Qed.

(** X13: [sort] reads [_data] only.  On an accessor [x] (every instance
    of which still has its methods: no assigned attribute hides one),
    every instance that [x.sort()] creates has an empty attribute table,
    whatever else was assigned on the source instances, and a name that
    is no key of the source is missing on the result. *)
Theorem sort_drops_assigned_attributes (rv : bool) (h : heap) (x : addr)
  (its : list (string * tree)) (fuel : nat) (p : string) :
  accessor h x its -> depth (TDot its) <= fuel ->
  plain_name p = true -> is_class_attr p = false -> p ∉ map fst its ->
  exists h' r,
    call_sort fuel h x None rv = Ok (h', r) /\
    (forall a o, length h <= a -> h' !! a = Some (ODot o) -> attrs o = ∅) /\
    getattr h' (VRef r) p = Ok (h' ++ [OSafeNone ∅], VRef (length h')).
Proof.
  intros Hx Hfuel Hp Hc Hk.
  destruct (sort_spec rv h x its fuel Hx Hfuel) as (h' & r & Hrun & _ & Hrep).
  exists h', r. split.
  { destruct (accessor_calls _ _ _ _ _ Hx) as (-> & _). exact Hrun. }
  assert (Hat : all_dots (length h) no_attrs h').
  { eapply (sort_keeps (length h) no_attrs no_attrs_closed);
      [apply all_dots_fresh|exact Hrun]. }
  assert (Hinv : all_dots (length h) obj_inv h').
  { eapply (sort_keeps (length h) obj_inv obj_inv_closed);
      [apply all_dots_fresh|exact Hrun]. }
  split; [exact Hat|].
  rewrite tsort_dot in Hrep.
  inversion Hrep as [e a o its' Hlo Hlook Hmi Hnd Hdu Hents| |]; subst.
  destruct (getattr_get_agree h' r o p Hlook (Hinv r o Hlo Hlook) Hp Hc) as [_ Hmiss].
  { rewrite (Hat r o Hlo Hlook). apply lookup_empty. }
  apply Hmiss. rewrite (entries_keys _ _ _ _ Hents).
  intros Hin. apply Hk.
  rewrite <- (map_fst_retag (tsort rv) its).
  eapply elem_of_Permutation_proper; [|exact Hin].
  apply Permutation_map. symmetry. apply sorted_perm.
Qed.

Lemma sort_drops_assigned_attributes_witness :
  exists h' r,
    call_sort 3 assigned_heap 0 None false = Ok (h', r) /\
    (forall a o, length assigned_heap <= a -> h' !! a = Some (ODot o) -> attrs o = ∅) /\
    getattr h' (VRef r) "note" = Ok (h' ++ [OSafeNone ∅], VRef (length h')).
Proof.
  apply (sort_drops_assigned_attributes false assigned_heap 0 sample_entries 3 "note");
    [exact assigned_accessor | vm_compute; lia | reflexivity | reflexivity | ].
  vm_compute. intros H.
  repeat (apply elem_of_cons in H as [H|H]; [discriminate H|]).
  by apply elem_of_nil in H.
Defined.

(** ** Equality is structural *)

(** X14: two accessors built from the same source mapping are different
    instances and compare equal. *)
Theorem equal_sources_equal_accessors (d : list (string * value)) (h : heap)
  (fuel : nat) :
  wf_source (VDict d) = true -> depth (tree_of (VDict d)) <= fuel ->
  exists h1 x h2 y,
    DotAccessDict (VDict d) h = Ok (h1, x) /\
    DotAccessDict (VDict d) h1 = Ok (h2, y) /\
    x <> y /\
    py_eq fuel h2 (VRef x) (VRef y) = Ok true.
Proof.
  intros Hwf Hfuel.
  destruct (DotAccessDict_spec _ h Hwf) as (h1 & Hrun1 & Hpre1 & Hrep1).
  destruct (DotAccessDict_spec _ h1 Hwf) as (h2 & Hrun2 & Hpre2 & Hrep2).
  apply (repr_weaken _ 0) in Hrep1; [|lia]. apply (repr_weaken _ 0) in Hrep2; [|lia].
  exists h1, (length h), h2, (length h1). split; [done|]. split; [done|].
  split.
  { inversion Hrep1; subst.
    match goal with H : h1 !! length h = Some _ |- _ => apply lookup_lt_Some in H end.
    lia. }
  rewrite (py_eq_spec h2 _ fuel Hfuel true _ _ _
             (repr_prefix _ _ _ _ _ _ Hpre2 Hrep1) Hrep2).
  f_equal. by eapply spec_equal_refl.
Qed.

Lemma equal_sources_equal_accessors_witness :
  exists h1 x h2 y,
    DotAccessDict sample_source [] = Ok (h1, x) /\
    DotAccessDict sample_source h1 = Ok (h2, y) /\
    x <> y /\
    py_eq 3 h2 (VRef x) (VRef y) = Ok true.
Proof.
  apply (equal_sources_equal_accessors
           [("c", VDict [("e", VNone)]);
            ("Test1", VDict [("z", VInt 42);
                             ("b", VList [VDict [("y", VInt 1); ("x", VInt 2)]; VInt 7])])]
           [] 3);
    [vm_compute; reflexivity | vm_compute; lia].
Defined.

(** ** [main] *)

Lemma missing_chain_raises_on (h : heap) (x : addr) (o : dot_obj)
  (p1 p2 p3 : string) (rest : list string) :
  h !! x = Some (ODot o) ->
  plain_name p1 = true -> plain_name p2 = true -> plain_name p3 = true ->
  attrs o !! p1 = None -> is_class_attr p1 = false -> _namespace o !! p1 = None ->
  getattr_chain h (VRef x) (p1 :: p2 :: p3 :: rest) = Err AttributeError.
Proof.
  intros Hx H1 H2 H3 Ha Hc Hn.
  assert (G1 : getattr h (VRef x) p1 = Ok (h ++ [OSafeNone ∅], VRef (length h))).
  { unfold getattr. rewrite H1, Hx, Ha, Hc, Hn. reflexivity. }
  assert (G2 : getattr (h ++ [OSafeNone ∅]) (VRef (length h)) p2
               = Ok (h ++ [OSafeNone ∅], VNone)).
  { unfold getattr. rewrite H2, lookup_new. simpl. by rewrite lookup_empty. }
  assert (G3 : getattr (h ++ [OSafeNone ∅]) VNone p3 = Err AttributeError).
  { unfold getattr. by rewrite H3. }
  simpl. rewrite G1. simpl. rewrite G2. simpl. by rewrite G3.
Qed.

(** X15: [main] raises AttributeError on every document without a
    top-level key [Test1], the empty document included: [x.Test1] is a
    SafeNone, the next segment gives [None], and the third access
    fails. *)
Theorem main_needs_Test1 (data : value) (fuel : nat) :
  wf_source data = true ->
  (forall d, data = VDict d -> "Test1" ∉ map fst d) ->
  main data fuel = Err AttributeError.
Proof.
  intros Hwf Hk.
  destruct (DotAccessDict_spec data [] Hwf) as (h0 & Hrun & _ & Hrep).
  assert (Hat : all_dots 0 no_attrs h0).
  { eapply (DotAccessDict_keeps 0 no_attrs no_attrs_closed);
      [apply all_dots_nil|exact Hrun]. }
  assert (Hinv : all_dots 0 obj_inv h0).
  { eapply (DotAccessDict_keeps 0 obj_inv obj_inv_closed);
      [apply all_dots_nil|exact Hrun]. }
  unfold main, main_path. rewrite Hrun. simpl length. cbn [bind].
  assert (Hkeys : forall its, TDot its = tree_of data -> "Test1" ∉ map fst its).
  { destruct data as [| | | | |d| |];
      try (intros its [= ->]; by intros ?%elem_of_nil).
    rewrite tree_of_dict. intros its [= ->]. rewrite map_fst_retag. by apply Hk. }
  simpl length in Hrep. remember (tree_of data) as t eqn:Ht.
  inversion Hrep as [e a o its Hlo Hlook Hmi Hnd Hdu Hents| |e' v' Hpl Hnl]; subst;
    [|discriminate Hpl].
  destruct (Hinv 0 o (le_n _) Hlook) as (_ & _ & Hns).
  rewrite (missing_chain_raises_on h0 0 o "Test1" "KueTwVaOzF" "IMNaOXFnhj" _ Hlook);
    try reflexivity.
  - rewrite (Hat 0 o (le_n _) Hlook). apply lookup_empty.
  - rewrite Hns. apply od_get_None. rewrite (entries_keys _ _ _ _ Hents).
    by apply Hkeys.
Qed.

Lemma main_needs_Test1_witness : main VNone 10 = Err AttributeError.
Proof.
  apply (main_needs_Test1 VNone 10); [reflexivity | intros d Hd; discriminate Hd].
Defined.

(** ** [sort] with any key function *)

Lemma store_entry_prefix (h0 h h' : heap) (res : addr) (k : string) (v : value) :
  h0 `prefix_of` h -> length h0 <= res ->
  store_entry h res k v = Ok h' -> h0 `prefix_of` h'.
Proof.
  intros Hpre Hres. unfold store_entry, get_dot, ns_setattr.
  destruct (h !! res) as [[o|s]|]; simpl; try done.
  destruct (String.eqb k "__class__"); simpl; [done|].
  destruct (String.eqb k "__dict__"); simpl; [done|].
  intros [= <-]. by apply prefix_insert.
Qed.

Section sort_appends.
Variable rec : heap -> addr -> result (heap * addr).
Hypothesis Hrec : forall h c h' r, rec h c = Ok (h', r) -> h `prefix_of` h'.

Lemma sort_instance_appends (h h' : heap) (v v' : value) :
  sort_instance rec h v = Ok (h', v') -> h `prefix_of` h'.
Proof.
  destruct v; simpl; try (by intros [= <- _]).
  destruct (bound_method h a "sort") as [[]|]; simpl; [|done].
  destruct (rec h a) as [[h1 r]|] eqn:Hr; simpl; [|done].
  intros [= <- _]. by eapply Hrec.
Qed.

Lemma sort_item_appends (h h' : heap) (v v' : value) :
  sort_item rec h v = Ok (h', v') -> h `prefix_of` h'.
Proof.
  unfold sort_item. destruct (is_dot h v).
  - apply sort_instance_appends.
  - by intros [= <- _].
Qed.

Lemma sort_each_appends (l : list value) :
  forall h h' l', sort_each rec l h = Ok (h', l') -> h `prefix_of` h'.
Proof.
  induction l as [|x l IH]; intros h h' l'; simpl; [by intros [= <- _]|].
  destruct (sort_item rec h x) as [[h1 e]|] eqn:Hx; simpl; [|done].
  destruct (sort_each rec l h1) as [[h2 es]|] eqn:Hl; simpl; [|done].
  intros [= <- _]. etrans; [by eapply sort_item_appends|by eapply IH].
Qed.

Lemma sort_value_appends (h h' : heap) (v v' : value) :
  sort_value rec h v = Ok (h', v') -> h `prefix_of` h'.
Proof.
  unfold sort_value. destruct (is_dot h v).
  - apply sort_instance_appends.
  - destruct v as [| | | |l| | |]; try (by intros [= <- _]).
    destruct (sort_each rec l h) as [[h1 es]|] eqn:Hl; simpl; [|done].
    intros [= <- _]. by eapply sort_each_appends.
Qed.

Lemma sort_loop_appends (h0 : heap) (res : addr) (l : list (string * value)) :
  length h0 <= res ->
  forall h h', h0 `prefix_of` h -> sort_loop rec res l h = Ok h' -> h0 `prefix_of` h'.
Proof.
  intros Hres. induction l as [|[k v] l IH]; intros h h' Hpre; simpl;
    [by intros [= <-]|].
  destruct (sort_value rec h v) as [[h1 e]|] eqn:Hv; simpl; [|done].
  destruct (store_entry h1 res k e) as [h2|] eqn:Hs; simpl; [|done].
  apply IH. eapply store_entry_prefix; [|done|exact Hs].
  etrans; [exact Hpre|by eapply sort_value_appends].
Qed.
End sort_appends.

Lemma sort_appends (key : option (string * value -> string)) (rv : bool) (fuel : nat) :
  forall h x h' r,
    sort fuel h x key rv = Ok (h', r) -> r = length h /\ h `prefix_of` h'.
Proof.
  induction fuel as [|n IH]; intros h x h' r; [done|].
  simpl. destruct (items h x) as [xs|]; simpl; [|done].
  destruct (sort_loop _ _ _ _) as [h1|] eqn:Hl; simpl; [|done].
  intros [= <- <-]. split; [done|].
  eapply (sort_loop_appends _ (fun a c b r0 H => proj2 (IH a c b r0 H)) h);
    [done| |exact Hl].
  by apply prefix_app_r.
Qed.

(** X16: with any key function and on any heap, whenever [sort]
    returns, its result is at an address that was free before and every
    object that existed before is unchanged. *)
Theorem sort_only_appends (key : option (string * value -> string)) (rv : bool)
  (fuel : nat) (h : heap) (x : addr) :
  match sort fuel h x key rv with
  | Ok (h', r) =>
      h !! r = None /\
      forall a o, h !! a = Some o -> h' !! a = Some o
  | Err _ => True
  end.
Proof.
  destruct (sort fuel h x key rv) as [[h' r]|] eqn:Hrun; [|done].
  destruct (sort_appends key rv fuel h x h' r Hrun) as [-> Hpre].
  split; [apply lookup_ge_None_2; lia|].
  intros a o Ha. by eapply prefix_lookup_Some.
Qed.

(** ** [sort] and [get] *)

Lemma entries_lookup_tree (lo : addr) (h : heap) (dd : list (string * value))
  (its : list (string * tree)) (k : string) (t : tree) :
  Forall2 (fun kv kt => kv.1 = kt.1 /\ repr lo h true kv.2 kt.2) dd its ->
  (k, t) ∈ its ->
  exists v, (k, v) ∈ dd /\ repr lo h true v t.
Proof.
  induction 1 as [|[k1 v1] [k2 t2] dd its [Hk Hv] _ IH]; intros Hin;
    [by apply elem_of_nil in Hin|].
  simpl in *. subst k2. apply elem_of_cons in Hin as [[= -> ->]|Hin].
  - exists v1. split; [left|done].
  - destruct (IH Hin) as (v & Hv' & Hr). exists v. split; [by right|done].
Qed.

(** X17: sorting and looking up commute.  For an entry [k] of an
    accessor [x] (no instance of which has a method hidden by an assigned
    attribute), [x.sort().get(k)] stands for the sorted tree of what is
    stored under [k] in [x]. *)
Theorem sort_then_get (rv : bool) (h : heap) (x : addr)
  (its : list (string * tree)) (fuel : nat) (k : string) (t : tree) (dflt : value) :
  accessor h x its -> depth (TDot its) <= fuel -> (k, t) ∈ its ->
  exists h' r v,
    call_sort fuel h x None rv = Ok (h', r) /\
    call_get h' r k dflt = Ok v /\
    repr (length h) h' true v (tsort rv t).
Proof.
  intros Hx Hfuel Hin.
  destruct (call_sort_spec rv h x its fuel Hx Hfuel) as (h' & r & Hrun & _ & Hrep).
  destruct (accessor_calls _ _ _ _ _ Hrep) as (_ & _ & _ & _ & Hget).
  rewrite tsort_dot in Hrep.
  inversion Hrep as [e a o its' Hlo Hlook Hmi Hnd Hdu Hents| |]; subst.
  destruct (entries_lookup_tree _ _ _ _ k (tsort rv t) Hents) as (v & Hv & Hr).
  { eapply elem_of_Permutation_proper; [apply sorted_perm|].
    apply list_elem_of_In. apply (in_map (fun kt => (kt.1, tsort rv kt.2)) its (k, t)).
    by apply list_elem_of_In. }
  exists h', r, v. split; [done|]. split; [|done].
  rewrite Hget.
  unfold get, get_dot. rewrite Hlook. simpl. by rewrite (od_get_in _ _ _ Hnd Hv).
Qed.

Lemma sort_then_get_witness :
  exists h' r v,
    call_sort 3 sample_heap 0 None false = Ok (h', r) /\
    call_get h' r "c" VNone = Ok v /\
    repr (length sample_heap) h' true v (tsort false (TDot [("e", TVal VNone)])).
Proof.
  apply (sort_then_get false sample_heap 0 sample_entries 3 "c"
           (TDot [("e", TVal VNone)]) VNone);
    [exact sample_accessor | vm_compute; lia | vm_compute; left].
Defined.

(** [sort] with a key function and [reverse=True] on the sample. *)
Lemma sort_with_key_example :
  exists h' r,
    call_sort 3 sample_heap 0 (Some (fun kv => kv.1)) true = Ok (h', r) /\
    call_keys h' r = Ok ["c"; "Test1"].
Proof. eexists _, _. split; vm_compute; reflexivity. Qed.
